(** * slatedb-go: compactor state and sorted-run iteration

    A shallow embedding of [slatedb/compactor_state.go] (SourceID,
    Compaction, CompactorState with submitCompaction, refreshDBState and
    finishCompaction) and of the sorted-run iterator exercised by the
    sorted-run tests, followed by the properties the specification
    states about them.

    Conventions.  A Go [uint32] is a [Z] in [0, 2^32); a Go [int] is a
    64-bit [Z]; a [[]byte] or a [string] is a [string] or a list of
    byte values; [mo.Option] is [option]; a Go map is a [gmap]; a map
    used as a set is a [gset].  A call that can hit [common.AssertTrue]
    returns an [outcome]: either it is [Done] with its result or it
    [Panicked] with the assertion's message. *)

From Stdlib Require Import ZArith Lia List Ascii String Bool.
From stdpp Require Import base option list sorting gmap sets strings.
Import ListNotations.

Local Open Scope Z_scope.

(* ================================================================== *)
(** ** Go basics: optional values, fatal assertions, machine integers *)
(* ================================================================== *)

Module mo.
(** [mo.Option.IsPresent] *)
Definition IsPresent {A} (o : option A) : bool :=
  match o with Some _ => true | None => false end.

(** [mo.Option.IsAbsent] *)
Definition IsAbsent {A} (o : option A) : bool := negb (IsPresent o).

(** [mo.Option.Get], first component: the value, or the zero value of
    the type when the option is empty. *)
Definition Get {A} (zero : A) (o : option A) : A :=
  match o with Some a => a | None => zero end.
End mo.

(** The result of a call that may abort on a fatal assertion. *)
Inductive outcome (A : Type) : Type :=
| Done (a : A)
| Panicked (msg : string).
Arguments Done {A} a.
Arguments Panicked {A} msg.

Global Instance outcome_ret : MRet outcome := fun A a => Done a.

Global Instance outcome_bind : MBind outcome := fun A B k m =>
  match m with
  | Done a => k a
  | Panicked msg => Panicked msg
  end.

(** [common.AssertTrue(condition, errMsg)]: panics with [errMsg] when the
    condition is false. *)
Definition AssertTrue (condition : bool) (errMsg : string) : outcome unit :=
  if condition then Done tt else Panicked errMsg.

(** [math.MaxUint32] and the ranges of the machine integers used. *)
Definition MaxUint32 : Z := 4294967295.
Definition MaxInt64 : Z := 9223372036854775807.
Definition MinInt64 : Z := -9223372036854775808.
Definition MaxUint64 : Z := 18446744073709551615.

Definition is_uint32 (n : Z) : Prop := 0 <= n <= MaxUint32.

(** The conversions [uint32(v)] of an [int] and [int(id)] of a [uint32]
    (64-bit [int]). *)
Definition to_uint32 (v : Z) : Z := v mod 2 ^ 32.
Definition int_of_uint32 (id : Z) : Z := id.

(** A byte value after an 8-bit operation. *)
Definition to_byte (x : Z) : Z := x mod 256.

(* ================================================================== *)
(** ** strconv.Itoa and strconv.Atoi (Go standard library)            *)
(* ================================================================== *)

(** The two functions of the standard library that [SourceID] calls,
    written after the library: decimal digits, an optional sign, and the
    errors of [ParseInt] with the values it returns with them. *)

Module strconv.

Inductive NumError : Type := ErrSyntax | ErrRange.

Definition digitChar (d : Z) : ascii := ascii_of_nat (48 + Z.to_nat d).

(** The digit loop of [formatBits] for base 10: the digits of [n] are
    produced from the least significant one and put in front of
    [acc].  Twenty digits cover every 64-bit value. *)
Fixpoint formatUint (fuel : nat) (n : Z) (acc : list ascii) : list ascii :=
  match fuel with
  | O => acc
  | S fuel' =>
      let acc' := digitChar (n mod 10) :: acc in
      if n <? 10 then acc' else formatUint fuel' (n / 10) acc'
  end.

(** [strconv.Itoa(i)], that is [FormatInt(int64(i), 10)]. *)
Definition Itoa (i : Z) : string :=
  if i <? 0
  then String "-" (string_of_list_ascii (formatUint 20 (- i) []))
  else string_of_list_ascii (formatUint 20 i []).

Definition isDigit (c : ascii) : bool :=
  (48 <=? nat_of_ascii c)%nat && (nat_of_ascii c <=? 57)%nat.

Definition digitVal (c : ascii) : Z := Z.of_nat (nat_of_ascii c) - 48.

(** The loop of [ParseUint(s, 10, 64)]: a character that is no decimal
    digit is a syntax error (value 0); an overflow of 64 bits is a
    range error (value [MaxUint64]), reported where it happens. *)
Fixpoint parseLoop (cs : list ascii) (n : Z) : Z * option NumError :=
  match cs with
  | [] => (n, None)
  | c :: cs' =>
      if negb (isDigit c) then (0, Some ErrSyntax)
      else if MaxUint64 / 10 + 1 <=? n then (MaxUint64, Some ErrRange)
      else
        let n1 := n * 10 + digitVal c in
        if MaxUint64 <? n1 then (MaxUint64, Some ErrRange)
        else parseLoop cs' n1
  end.

Definition ParseUint (cs : list ascii) : Z * option NumError :=
  match cs with
  | [] => (0, Some ErrSyntax)
  | _ => parseLoop cs 0
  end.

(** [ParseInt(s, 10, 64)]: optional sign, then [ParseUint]; a value
    outside the 64-bit signed range is clamped and reported as a range
    error. *)
Definition ParseInt (s : string) : Z * option NumError :=
  match list_ascii_of_string s with
  | [] => (0, Some ErrSyntax)
  | c :: cs' =>
      let neg := Ascii.eqb c "-" in
      let body := if Ascii.eqb c "+" || neg then cs' else c :: cs' in
      match ParseUint body with
      | (_, Some ErrSyntax) => (0, Some ErrSyntax)
      | (un, _) =>
          if negb neg && (MaxInt64 + 1 <=? un) then (MaxInt64, Some ErrRange)
          else if neg && (MaxInt64 + 1 <? un) then (MinInt64, Some ErrRange)
          else (if neg then - un else un, None)
      end
  end.

(** [strconv.Atoi(s)]: the value and the error ([None] is [nil]).  Its
    fast path for short strings computes what [ParseInt] computes. *)
Definition Atoi (s : string) : Z * option NumError := ParseInt s.

End strconv.

(* ================================================================== *)
(** ** ulid.ULID, its String and Parse (github.com/oklog/ulid/v2)     *)
(* ================================================================== *)

(** The identifier type of the ulid library and the two functions of it
    that [SourceID] calls, written after the library: sixteen bytes,
    rendered as 26 characters of Crockford's base 32 and read back by
    table lookup and shifts on bytes. *)

Module ulid.

(** [type ULID [16]byte] *)
Abbreviation ULID := (list Z).

Definition wf (id : ULID) : Prop :=
  length id = 16%nat /\ Forall (fun b => 0 <= b < 256) id.

(** The zero value of [ULID]. *)
Definition zero : ULID := repeat 0 16.

Inductive Error : Type := ErrDataSize | ErrOverflow.

(** Crockford's base 32 alphabet, [ulid.Encoding]. *)
Definition Encoding : list ascii :=
  list_ascii_of_string "0123456789ABCDEFGHJKMNPQRSTVWXYZ".

Definition lowerEncoding : list ascii :=
  list_ascii_of_string "0123456789abcdefghjkmnpqrstvwxyz".

Definition enc (x : Z) : ascii := nth (Z.to_nat x) Encoding "0"%char.

Fixpoint index_of (c : ascii) (l : list ascii) (i : Z) : option Z :=
  match l with
  | [] => None
  | d :: l' => if Ascii.eqb c d then Some i else index_of c l' (i + 1)
  end.

(** The table [dec]: the value of a base 32 digit in either case, and
    [0xFF] for every other byte. *)
Definition dec (c : ascii) : Z :=
  match index_of c Encoding 0 with
  | Some i => i
  | None =>
      match index_of c lowerEncoding 0 with
      | Some i => i
      | None => 255
      end
  end.

Notation "a '&' b" := (Z.land a b) (at level 40, left associativity).
Notation "a '<<' b" := (Z.shiftl a b) (at level 38, left associativity).
Notation "a '>>' b" := (Z.shiftr a b) (at level 38, left associativity).
Notation "a '.|' b" := (Z.lor a b) (at level 50, left associativity).

Definition at_ (id : ULID) (i : nat) : Z := nth i id 0.

(** [ULID.String] ([MarshalTextTo]): 26 characters, the first ten for
    the 48-bit timestamp, the other sixteen for the entropy. *)
Definition String_ (id : ULID) : string :=
  let b := at_ id in
  string_of_list_ascii
    [ enc ((b 0%nat & 224) >> 5);
      enc (b 0%nat & 31);
      enc ((b 1%nat & 248) >> 3);
      enc (((b 1%nat & 7) << 2) .| ((b 2%nat & 192) >> 6));
      enc ((b 2%nat & 62) >> 1);
      enc (((b 2%nat & 1) << 4) .| ((b 3%nat & 240) >> 4));
      enc (((b 3%nat & 15) << 1) .| ((b 4%nat & 128) >> 7));
      enc ((b 4%nat & 124) >> 2);
      enc (((b 4%nat & 3) << 3) .| ((b 5%nat & 224) >> 5));
      enc (b 5%nat & 31);
      enc ((b 6%nat & 248) >> 3);
      enc (((b 6%nat & 7) << 2) .| ((b 7%nat & 192) >> 6));
      enc ((b 7%nat & 62) >> 1);
      enc (((b 7%nat & 1) << 4) .| ((b 8%nat & 240) >> 4));
      enc (((b 8%nat & 15) << 1) .| ((b 9%nat & 128) >> 7));
      enc ((b 9%nat & 124) >> 2);
      enc (((b 9%nat & 3) << 3) .| ((b 10%nat & 224) >> 5));
      enc (b 10%nat & 31);
      enc ((b 11%nat & 248) >> 3);
      enc (((b 11%nat & 7) << 2) .| ((b 12%nat & 192) >> 6));
      enc ((b 12%nat & 62) >> 1);
      enc (((b 12%nat & 1) << 4) .| ((b 13%nat & 240) >> 4));
      enc (((b 13%nat & 15) << 1) .| ((b 14%nat & 128) >> 7));
      enc ((b 14%nat & 124) >> 2);
      enc (((b 14%nat & 3) << 3) .| ((b 15%nat & 224) >> 5));
      enc (b 15%nat & 31) ].

(** [ulid.Parse] (the non-strict [parse]): the length must be 26 and
    the first character at most ['7']; the characters are not checked
    against the alphabet.  All operations are on bytes.  With an error
    the identifier returned is the zero value. *)
Definition Parse (s : string) : ULID * option Error :=
  let v := list_ascii_of_string s in
  let d i := dec (nth i v "000"%char) in
  if negb (length v =? 26)%nat then (zero, Some ErrDataSize)
  else if (55 <? nat_of_ascii (nth 0 v "000"%char))%nat
  then (zero, Some ErrOverflow)
  else
    ([ to_byte (to_byte (d 0%nat << 5) .| d 1%nat);
       to_byte (to_byte (d 2%nat << 3) .| (d 3%nat >> 2));
       to_byte (to_byte (d 3%nat << 6) .| to_byte (d 4%nat << 1) .| (d 5%nat >> 4));
       to_byte (to_byte (d 5%nat << 4) .| (d 6%nat >> 1));
       to_byte (to_byte (d 6%nat << 7) .| to_byte (d 7%nat << 2) .| (d 8%nat >> 3));
       to_byte (to_byte (d 8%nat << 5) .| d 9%nat);
       to_byte (to_byte (d 10%nat << 3) .| (d 11%nat >> 2));
       to_byte (to_byte (d 11%nat << 6) .| to_byte (d 12%nat << 1) .| (d 13%nat >> 4));
       to_byte (to_byte (d 13%nat << 4) .| (d 14%nat >> 1));
       to_byte (to_byte (d 14%nat << 7) .| to_byte (d 15%nat << 2) .| (d 16%nat >> 3));
       to_byte (to_byte (d 16%nat << 5) .| d 17%nat);
       to_byte (to_byte (d 18%nat << 3) .| (d 19%nat >> 2));
       to_byte (to_byte (d 19%nat << 6) .| to_byte (d 20%nat << 1) .| (d 21%nat >> 4));
       to_byte (to_byte (d 21%nat << 4) .| (d 22%nat >> 1));
       to_byte (to_byte (d 22%nat << 7) .| to_byte (d 23%nat << 2) .| (d 24%nat >> 3));
       to_byte (to_byte (d 24%nat << 5) .| d 25%nat) ],
     None).

End ulid.

(* ================================================================== *)
(** ** SourceID                                                       *)
(* ================================================================== *)

Inductive SourceIDType : Type := SortedRunID | SSTID.

Global Instance SourceIDType_eq_dec : EqDecision SourceIDType.
Proof. solve_decision. Defined.

Record SourceID : Type := mkSourceID {
  src_typ : SourceIDType;
  src_value : string
}.

Global Instance SourceID_eq_dec : EqDecision SourceID.
Proof. solve_decision. Defined.

Definition newSourceIDSortedRun (id : Z) : SourceID :=
  {| src_typ := SortedRunID;
     src_value := strconv.Itoa (int_of_uint32 id) |}.

Definition newSourceIDSST (id : ulid.ULID) : SourceID :=
  {| src_typ := SSTID;
     src_value := ulid.String_ id |}.

Definition sortedRunID (s : SourceID) : option Z :=
  if negb (bool_decide (src_typ s = SortedRunID)) then None
  else
    match strconv.Atoi (src_value s) with
    | (_, Some _) => None
    | (val, None) => Some (to_uint32 val)
    end.

Definition sstID (s : SourceID) : option ulid.ULID :=
  if negb (bool_decide (src_typ s = SSTID)) then None
  else
    match ulid.Parse (src_value s) with
    | (_, Some _) => None
    | (val, None) => Some val
    end.

(* ================================================================== *)
(** ** Files, sorted runs and the database snapshot                   *)
(* ================================================================== *)

Inductive SSTableIDType : Type := WAL | Compacted.

Global Instance SSTableIDType_eq_dec : EqDecision SSTableIDType.
Proof. solve_decision. Defined.

(** Modelled from the spec: the file identity [SSTableID], which is
    declared outside the files at hand.  It is "an opaque,
    comparable/orderable token tagged as either a write-ahead-log-assigned
    sequence id or a compacted-file id"; [sst_typ] is its field [typ] and
    [compactedID] its accessor of the same name, absent on the other
    kind. *)
Inductive SSTableID : Type :=
| newSSTableIDWal (id : Z)
| newSSTableIDCompacted (id : ulid.ULID).

Global Instance SSTableID_eq_dec : EqDecision SSTableID.
Proof. solve_decision. Defined.

Definition sst_typ (s : SSTableID) : SSTableIDType :=
  match s with
  | newSSTableIDWal _ => WAL
  | newSSTableIDCompacted _ => Compacted
  end.

Definition compactedID (s : SSTableID) : option ulid.ULID :=
  match s with
  | newSSTableIDWal _ => None
  | newSSTableIDCompacted id => Some id
  end.

(** Modelled from the spec: the handle of a stored file.  This core
    "never interprets the encoded bytes, only compares and threads ids";
    [sst_info] stands for the metadata kept with the id. *)
Record SSTableHandle : Type := mkSSTableHandle {
  sst_id : SSTableID;
  sst_info : Z
}.

Global Instance SSTableHandle_eq_dec : EqDecision SSTableHandle.
Proof. solve_decision. Defined.

(** Modelled from the spec: [SortedRun], "{ id: uint32, files: ordered
    sequence of file handles }", declared outside the files at hand; the
    compactor reads its field [id] and the tests build it as
    [SortedRun{0, sstList}]. *)
Record SortedRun : Type := mkSortedRun {
  sr_id : Z;
  sstList : list SSTableHandle
}.

Global Instance SortedRun_eq_dec : EqDecision SortedRun.
Proof. solve_decision. Defined.

(** Modelled from the spec: [CoreDBState], a copy-on-write value with the
    level-0 files newest first, the watermark [l0LastCompacted], the
    sorted runs and the two counters owned by the write path. *)
Record CoreDBState : Type := mkCoreDBState {
  l0 : list SSTableHandle;
  l0LastCompacted : option ulid.ULID;
  compacted : list SortedRun;
  nextWalSstID : Z;
  lastCompactedWalSSTID : Z
}.

(** Modelled from the spec: [CoreDBState.clone], a copy of every field. *)
Definition clone (c : CoreDBState) : CoreDBState :=
  {| l0 := l0 c;
     l0LastCompacted := l0LastCompacted c;
     compacted := compacted c;
     nextWalSstID := nextWalSstID c;
     lastCompactedWalSSTID := lastCompactedWalSSTID c |}.

(* ================================================================== *)
(** ** Compaction                                                     *)
(* ================================================================== *)

Inductive CompactionStatus : Type := Submitted | InProgress.

Record Compaction : Type := mkCompaction {
  status : CompactionStatus;
  sources : list SourceID;
  destination : Z
}.

Definition newCompaction (sources : list SourceID) (destination : Z) : Compaction :=
  {| status := Submitted;
     sources := sources;
     destination := destination |}.

(* ================================================================== *)
(** ** CompactorState                                                 *)
(* ================================================================== *)

Module common.
Inductive error : Type := ErrInvalidCompaction.
End common.

Record CompactorState : Type := mkCompactorState {
  dbState : CoreDBState;
  compactions : gmap Z Compaction
}.

Definition newCompactorState (dbState : CoreDBState) : CompactorState :=
  {| dbState := dbState;
     compactions := ∅ |}.

Definition getCompactions (c : CompactorState) : list Compaction :=
  (map_to_list (compactions c)).*2.

(** The loop of [oneOfTheSourceSRMatchesDestination]; the error of
    [strconv.Atoi] is dropped there, so its value is used as it is. *)
Fixpoint oneOfTheSourceSRMatches (srcs : list SourceID) (dest : Z) : bool :=
  match srcs with
  | [] => false
  | src :: rest =>
      if bool_decide (src_typ src = SortedRunID)
      then
        let srcVal := fst (strconv.Atoi (src_value src)) in
        if to_uint32 srcVal =? dest then true
        else oneOfTheSourceSRMatches rest dest
      else oneOfTheSourceSRMatches rest dest
  end.

Definition oneOfTheSourceSRMatchesDestination (compaction : Compaction) : bool :=
  oneOfTheSourceSRMatches (sources compaction) (destination compaction).

(** The loop of [submitCompaction] over [dbState.compacted]: it stops at
    the first run with the destination's id. *)
Fixpoint checkDestination (srs : list SortedRun) (compaction : Compaction)
  : option common.error :=
  match srs with
  | [] => None
  | sr :: rest =>
      if sr_id sr =? destination compaction
      then
        if negb (oneOfTheSourceSRMatchesDestination compaction)
        then Some common.ErrInvalidCompaction
        else None
      else checkDestination rest compaction
  end.

(** [submitCompaction]: the state after the call and the error returned
    ([None] is [nil]). *)
Definition submitCompaction (c : CompactorState) (compaction : Compaction)
  : CompactorState * option common.error :=
  match compactions c !! destination compaction with
  | Some _ => (c, Some common.ErrInvalidCompaction)
  | None =>
      match checkDestination (compacted (dbState c)) compaction with
      | Some err => (c, Some err)
      | None =>
          ({| dbState := dbState c;
              compactions := <[destination compaction := compaction]> (compactions c) |},
           None)
      end
  end.

(** The loop of [refreshDBState] over [writerState.l0]. *)
Fixpoint mergeL0s (lastCompactedL0 : option ulid.ULID) (writerL0 : list SSTableHandle)
    (mergedL0s : list SSTableHandle) : outcome (list SSTableHandle) :=
  match writerL0 with
  | [] => Done mergedL0s
  | writerL0SST :: rest =>
      _ ← AssertTrue (bool_decide (sst_typ (sst_id writerL0SST) = Compacted))
            "unexpected SSTableID type";
      let writerL0ID := mo.Get ulid.zero (compactedID (sst_id writerL0SST)) in
      let lastCompactedL0ID := mo.Get ulid.zero lastCompactedL0 in
      if mo.IsPresent lastCompactedL0 && bool_decide (writerL0ID = lastCompactedL0ID)
      then Done mergedL0s
      else mergeL0s lastCompactedL0 rest (mergedL0s ++ [writerL0SST])
  end.

Definition refreshDBState (c : CompactorState) (writerState : CoreDBState)
  : outcome CompactorState :=
  let lastCompactedL0 := l0LastCompacted (dbState c) in
  mergedL0s ← mergeL0s lastCompactedL0 (l0 writerState) [];
  let merged := clone (dbState c) in
  let merged :=
    {| l0 := mergedL0s;
       l0LastCompacted := l0LastCompacted merged;
       compacted := compacted merged;
       nextWalSstID := nextWalSstID writerState;
       lastCompactedWalSSTID := lastCompactedWalSSTID writerState |} in
  Done {| dbState := merged; compactions := compactions c |}.

(** The first loop of [finishCompaction]: the two membership maps built
    from the sources. *)
Fixpoint collectSources (srcs : list SourceID)
    (compactionL0s : gset ulid.ULID) (compactionSRs : gset Z)
  : gset ulid.ULID * gset Z :=
  match srcs with
  | [] => (compactionL0s, compactionSRs)
  | srcId :: rest =>
      if mo.IsPresent (sstID srcId)
      then
        let id := mo.Get ulid.zero (sstID srcId) in
        collectSources rest ({[id]} ∪ compactionL0s) compactionSRs
      else if mo.IsPresent (sortedRunID srcId)
      then
        let id := mo.Get 0 (sortedRunID srcId) in
        collectSources rest compactionL0s ({[id]} ∪ compactionSRs)
      else collectSources rest compactionL0s compactionSRs
  end.

(** The loop over [dbState.l0]. *)
Fixpoint filterL0 (compactionL0s : gset ulid.ULID) (ssts : list SSTableHandle)
    (newL0 : list SSTableHandle) : outcome (list SSTableHandle) :=
  match ssts with
  | [] => Done newL0
  | sst :: rest =>
      _ ← AssertTrue (mo.IsPresent (compactedID (sst_id sst)))
            "Expected compactedID not present";
      let l0ID := mo.Get ulid.zero (compactedID (sst_id sst)) in
      if bool_decide (l0ID ∈ compactionL0s)
      then filterL0 compactionL0s rest newL0
      else filterL0 compactionL0s rest (newL0 ++ [sst])
  end.

(** The loop over [dbState.compacted], with its flag [inserted]; the
    output run is appended after the loop when it was never inserted. *)
Fixpoint rebuildCompacted (compactionSRs : gset Z) (outputSR : SortedRun)
    (srs : list SortedRun) (newCompacted : list SortedRun) (inserted : bool)
  : list SortedRun :=
  match srs with
  | [] => if negb inserted then newCompacted ++ [outputSR] else newCompacted
  | sr :: rest =>
      let '(newCompacted, inserted) :=
        if negb inserted && (sr_id outputSR >=? sr_id sr)
        then (newCompacted ++ [outputSR], true)
        else (newCompacted, inserted) in
      let newCompacted :=
        if bool_decide (sr_id sr ∈ compactionSRs) then newCompacted
        else newCompacted ++ [sr] in
      rebuildCompacted compactionSRs outputSR rest newCompacted inserted
  end.

(** [assertCompactedSRsInIDOrder], started at [lastSortedRunID]. *)
Fixpoint assertInIDOrderFrom (lastSortedRunID : Z) (compacted : list SortedRun)
  : outcome unit :=
  match compacted with
  | [] => Done tt
  | sr :: rest =>
      _ ← AssertTrue (sr_id sr <? lastSortedRunID)
            "compacted sortedRuns not in decreasing order";
      assertInIDOrderFrom (sr_id sr) rest
  end.

Definition assertCompactedSRsInIDOrder (compacted : list SortedRun) : outcome unit :=
  assertInIDOrderFrom MaxUint32 compacted.

Definition finishCompaction (c : CompactorState) (outputSR : SortedRun)
  : outcome CompactorState :=
  match compactions c !! sr_id outputSR with
  | None => Done c
  | Some compaction =>
      let '(compactionL0s, compactionSRs) :=
        collectSources (sources compaction) ∅ ∅ in
      let compactionSRs := {[destination compaction]} ∪ compactionSRs in
      let dbState := clone (dbState c) in
      newL0 ← filterL0 compactionL0s (l0 dbState) [];
      let newCompacted :=
        rebuildCompacted compactionSRs outputSR (compacted dbState) [] false in
      _ ← assertCompactedSRsInIDOrder newCompacted;
      _ ← AssertTrue (0 <? length (sources compaction))%nat
            "compaction should not be empty";
      match sources compaction with
      | [] => Panicked "index out of range"
      | firstSource :: _ =>
          let watermark :=
            if mo.IsPresent (sstID firstSource)
            then Some (mo.Get ulid.zero (sstID firstSource))
            else l0LastCompacted dbState in
          Done {| dbState :=
                    {| l0 := newL0;
                       l0LastCompacted := watermark;
                       compacted := newCompacted;
                       nextWalSstID := nextWalSstID dbState;
                       lastCompactedWalSSTID := lastCompactedWalSSTID dbState |};
                  compactions := delete (sr_id outputSR) (compactions c) |}
      end
  end.

(** The three mutators as one type of calls, and a call that succeeds:
    it returns without a fatal assertion and, for [submitCompaction],
    without an error. *)
Inductive Call : Type :=
| CallSubmit (compaction : Compaction)
| CallRefresh (writerState : CoreDBState)
| CallFinish (outputSR : SortedRun).

Definition succeeds (c : CompactorState) (call : Call) (c' : CompactorState) : Prop :=
  match call with
  | CallSubmit compaction => submitCompaction c compaction = (c', None)
  | CallRefresh writerState => refreshDBState c writerState = Done c'
  | CallFinish outputSR => finishCompaction c outputSR = Done c'
  end.

Inductive successful_calls : CompactorState -> list Call -> CompactorState -> Prop :=
| calls_nil c : successful_calls c [] c
| calls_cons c call c' calls c'' :
    succeeds c call c' ->
    successful_calls c' calls c'' ->
    successful_calls c (call :: calls) c''.

(* ================================================================== *)
(** ** SortedRunIterator                                              *)
(* ================================================================== *)

Module common_kv.
(** Modelled from the spec: [common.KV], the pair an iterator yields, a
  key and its value, both byte strings. *)
Record KV : Type := mkKV {
  Key : string;
  Value : string
}.
End common_kv.
Import common_kv.

(** [bytes.Compare]: byte strings in lexicographic order. *)
Fixpoint bytesCompare (a b : string) : comparison :=
  match a, b with
  | EmptyString, EmptyString => Eq
  | EmptyString, String _ _ => Lt
  | String _ _, EmptyString => Gt
  | String x a', String y b' =>
      match Nat.compare (nat_of_ascii x) (nat_of_ascii y) with
      | Eq => bytesCompare a' b'
      | Lt => Lt
      | Gt => Gt
      end
  end.

Definition key_lt (a b : string) : Prop := bytesCompare a b = Lt.

(** Modelled from the spec: the table store, an external collaborator
    that can "open a sequential iterator over one file".  A store gives,
    for the handle of a file, the pairs stored in it, in the order the
    file holds them; [None] is a file that cannot be read. *)
Definition TableStore : Type := SSTableHandle -> option (list KV).

Inductive IterError : Type := ErrReadSST.

(** Modelled from the spec: the sequential iterator over one file, which
    is either at some position in the file's pairs or failed to read it. *)
Inductive SSTIterator : Type :=
| SSTIter (pending : list KV)
| SSTIterFailed.

Definition newSSTIterator (tableStore : TableStore) (sst : SSTableHandle) : SSTIterator :=
  match tableStore sst with
  | Some kvs => SSTIter kvs
  | None => SSTIterFailed
  end.

(** Modelled from the spec: [SortedRunIterator], whose source is not
    among the files at hand.  It is "constructed over a SortedRun plus
    two tuning parameters", and "producing the run's sequence is
    concatenation of per-file sequences, not a heap-based merge: exhaust
    file 0 entirely, then file 1, and so on".  The state is the iterator
    over the current file, if any, and the files still to open. *)
Record SortedRunIterator : Type := mkSortedRunIterator {
  currentKVIter : option SSTIterator;
  sstListIter : list SSTableHandle;
  tableStore : TableStore;
  maxFetchTasks : Z;
  numBlocksToFetch : Z
}.

(** Modelled from the spec: the full-scan constructor; it opens the
    first file of the run. *)
Definition newSortedRunIterator (sr : SortedRun) (tableStore : TableStore)
    (maxFetchTasks numBlocksToFetch : Z) : SortedRunIterator :=
  match sstList sr with
  | [] =>
      {| currentKVIter := None; sstListIter := [];
         tableStore := tableStore;
         maxFetchTasks := maxFetchTasks; numBlocksToFetch := numBlocksToFetch |}
  | sst :: rest =>
      {| currentKVIter := Some (newSSTIterator tableStore sst); sstListIter := rest;
         tableStore := tableStore;
         maxFetchTasks := maxFetchTasks; numBlocksToFetch := numBlocksToFetch |}
  end.

(** Modelled from the spec: the next pair of the current file, or, when
    that file is exhausted, of the next file that has one; with no file
    left the current iterator is dropped and the result is "none". *)
Fixpoint nextEntry (tableStore : TableStore) (cur : SSTIterator)
    (rest : list SSTableHandle) {struct rest}
  : (option KV * option IterError) * (option SSTIterator * list SSTableHandle) :=
  match cur with
  | SSTIterFailed => ((None, Some ErrReadSST), (Some cur, rest))
  | SSTIter (kv :: kvs) => ((Some kv, None), (Some (SSTIter kvs), rest))
  | SSTIter [] =>
      match rest with
      | [] => ((None, None), (None, []))
      | sst :: rest' => nextEntry tableStore (newSSTIterator tableStore sst) rest'
      end
  end.

(** Modelled from the spec: [SortedRunIterator.Next], which returns the
    pair or "none", and an error or [nil], and moves the iterator. *)
Definition Next (iter : SortedRunIterator)
  : (option KV * option IterError) * SortedRunIterator :=
  match currentKVIter iter with
  | None => ((None, None), iter)
  | Some cur =>
      let '(res, (cur', rest')) := nextEntry (tableStore iter) cur (sstListIter iter) in
      (res,
       {| currentKVIter := cur'; sstListIter := rest';
          tableStore := tableStore iter;
          maxFetchTasks := maxFetchTasks iter;
          numBlocksToFetch := numBlocksToFetch iter |})
  end.

(** The results of [n] calls of [Next] in a row, and the iterator after
    them. *)
Fixpoint nexts (n : nat) (iter : SortedRunIterator)
  : list (option KV * option IterError) :=
  match n with
  | O => []
  | S n' => let '(res, iter') := Next iter in res :: nexts n' iter'
  end.

Fixpoint after (n : nat) (iter : SortedRunIterator) : SortedRunIterator :=
  match n with
  | O => iter
  | S n' => after n' (snd (Next iter))
  end.

(* ================================================================== *)
(** ** The vocabulary of the specification                            *)
(* ================================================================== *)

(** "Strictly decreasing by id with no duplicate ids". *)
Definition strictly_decreasing_by_id (srs : list SortedRun) : Prop :=
  StronglySorted (fun a b => sr_id b < sr_id a) srs /\ NoDup (sr_id <$> srs).

(** A source id as the package makes them, by one of its two
    constructors: the two variants of the specification's SourceID. *)
Definition wfSourceID (s : SourceID) : Prop :=
  (exists id, is_uint32 id /\ s = newSourceIDSortedRun id) \/
  (exists id, ulid.wf id /\ s = newSourceIDSST id).

(** Every level-0 entry is "a compacted/flushed kind of id (never a raw
    write-ahead-log id)". *)
Definition l0_compacted_kind (ssts : list SSTableHandle) : Prop :=
  Forall (fun sst => sst_typ (sst_id sst) = Compacted) ssts.

(** The ids of the file-type sources and of the sorted-run-type sources
    of a compaction. *)
Definition fileSources (compaction : Compaction) : list ulid.ULID :=
  omap sstID (sources compaction).

Definition sortedRunSources (compaction : Compaction) : list Z :=
  omap sortedRunID (sources compaction).

(** A level-0 file "whose id is among the compaction's file-type
    sources". *)
Definition consumedFile (compaction : Compaction) (sst : SSTableHandle) : Prop :=
  match compactedID (sst_id sst) with
  | Some id => id ∈ fileSources compaction
  | None => False
  end.

Global Instance consumedFile_dec compaction sst : Decision (consumedFile compaction sst).
Proof. unfold consumedFile. destruct (compactedID (sst_id sst)); apply _. Defined.

(** A run "whose id is a sorted-run-type source or equals the
    destination". *)
Definition consumedRun (compaction : Compaction) (sr : SortedRun) : Prop :=
  sr_id sr ∈ sortedRunSources compaction \/ sr_id sr = destination compaction.

Global Instance consumedRun_dec compaction sr : Decision (consumedRun compaction sr).
Proof. unfold consumedRun. apply _. Defined.

(** "The first position where an existing run's id is ≤
    outputSortedRun.id", or the length of the list "if no such position
    exists". *)
Definition first_position_at_most (outputSR : SortedRun) (srs : list SortedRun)
    (i : nat) : Prop :=
  (forall j sr, srs !! j = Some sr -> (j < i)%nat -> sr_id outputSR < sr_id sr) /\
  (i = length srs \/ exists sr, srs !! i = Some sr /\ sr_id sr <= sr_id outputSR).

Fixpoint insertionPoint (outputSR : SortedRun) (srs : list SortedRun) : nat :=
  match srs with
  | [] => 0
  | sr :: rest =>
      if sr_id sr <=? sr_id outputSR then 0 else S (insertionPoint outputSR rest)
  end.

(** The state that [finishCompaction] is said to leave for a registered
    compaction: (a) the level-0 files that were not consumed, in order;
    (b) the runs that were not consumed, with the output run put at the
    first position at most its id; (c) the entry deleted. *)
Definition finishCompaction_replaces (c : CompactorState) (outputSR : SortedRun)
    (compaction : Compaction) : Prop :=
  exists c' i,
    finishCompaction c outputSR = Done c' /\
    l0 (dbState c') = filter (fun sst => ~ consumedFile compaction sst) (l0 (dbState c)) /\
    first_position_at_most outputSR (compacted (dbState c)) i /\
    compacted (dbState c') =
      filter (fun sr => ~ consumedRun compaction sr) (take i (compacted (dbState c)))
      ++ outputSR ::
      filter (fun sr => ~ consumedRun compaction sr) (drop i (compacted (dbState c))) /\
    compactions c' = delete (sr_id outputSR) (compactions c).

(** A level-0 entry "whose id equals the watermark". *)
Definition matches_watermark (watermark : option ulid.ULID) (sst : SSTableHandle) : Prop :=
  is_Some watermark /\ compactedID (sst_id sst) = watermark.

(** "The longest prefix of [writerL0] containing no entry whose id equals
    the watermark". *)
Definition longest_prefix_before (watermark : option ulid.ULID)
    (writerL0 kept : list SSTableHandle) : Prop :=
  kept `prefix_of` writerL0 /\
  Forall (fun sst => ~ matches_watermark watermark sst) kept /\
  (forall p, p `prefix_of` writerL0 ->
             Forall (fun sst => ~ matches_watermark watermark sst) p ->
             p `prefix_of` kept).

(** The watermark that [finishCompaction] is said to leave: the id of the
    first source when that is a file, the old watermark when it is a
    sorted run. *)
Definition watermark_after (firstSource : SourceID) (old : option ulid.ULID)
    (new : option ulid.ULID) : Prop :=
  (forall id, sstID firstSource = Some id -> new = Some id) /\
  (src_typ firstSource = SortedRunID -> new = old).

(** Files that are "individually sorted ascending", and files with
    "pairwise disjoint, ascending key ranges": every key of a file is
    below every key of a later file. *)
Definition sorted_file (kvs : list KV) : Prop :=
  StronglySorted key_lt (Key <$> kvs).

Definition ascending_ranges (files : list (list KV)) : Prop :=
  forall i j f g a b,
    (i < j)%nat -> files !! i = Some f -> files !! j = Some g ->
    a ∈ f -> b ∈ g -> key_lt (Key a) (Key b).

(** The table store holds the files of a run with the given contents. *)
Definition stored (tableStore : TableStore) (ssts : list SSTableHandle)
    (files : list (list KV)) : Prop :=
  Forall2 (fun sst kvs => tableStore sst = Some kvs) ssts files.

(** Checking a property of bytes on all 256 of them. *)
Definition all_bytes (f : Z -> bool) : bool := forallb f (seqZ 0 256).

(** The runs that (b) describes: the runs that are not consumed, with
    the output run at the insertion point. *)
Definition rebuilt (compaction : Compaction) (outputSR : SortedRun)
    (srs : list SortedRun) : list SortedRun :=
  filter (fun sr => ~ consumedRun compaction sr) (take (insertionPoint outputSR srs) srs)
  ++ outputSR ::
  filter (fun sr => ~ consumedRun compaction sr) (drop (insertionPoint outputSR srs) srs).

(** A sorted-run iterator at a given place: on [cur], with the files
    [rest] still to open. *)
Definition iterAt (store : TableStore) (fetchTasks blocksToFetch : Z)
    (cur : option SSTIterator) (rest : list SSTableHandle) : SortedRunIterator :=
  {| currentKVIter := cur; sstListIter := rest; tableStore := store;
     maxFetchTasks := fetchTasks; numBlocksToFetch := blocksToFetch |}.

(* ================================================================== *)
(** ** A planner's calls, one after the other                         *)
(* ================================================================== *)

(** One call of a mutator as its caller sees it: an error of
    [submitCompaction] is returned and the caller goes on with the state
    as the call left it; a fatal assertion ends the run. *)
Definition doCall (c : CompactorState) (call : Call) : outcome CompactorState :=
  match call with
  | CallSubmit compaction => Done (fst (submitCompaction c compaction))
  | CallRefresh writerState => refreshDBState c writerState
  | CallFinish outputSR => finishCompaction c outputSR
  end.

Fixpoint doCalls (c : CompactorState) (calls : list Call) : outcome CompactorState :=
  match calls with
  | [] => Done c
  | call :: rest => c' ← doCall c call; doCalls c' rest
  end.

(** Every entry of [compactions] is filed under its own destination. *)
Definition keyed_by_destination (m : gmap Z Compaction) : Prop :=
  map_Forall (fun k compaction => destination compaction = k) m.

(** Entries that [finishCompaction] can complete: filed under their
    destination, which is below [MaxUint32], and with a source. *)
Definition finishable (m : gmap Z Compaction) : Prop :=
  map_Forall (fun k compaction =>
                destination compaction = k /\ k < MaxUint32 /\
                sources compaction <> []) m.

(** A state on which no assertion of the mutators can fire. *)
Definition safe_state (c : CompactorState) : Prop :=
  l0_compacted_kind (l0 (dbState c)) /\
  strictly_decreasing_by_id (compacted (dbState c)) /\
  Forall (fun sr => sr_id sr < MaxUint32) (compacted (dbState c)) /\
  finishable (compactions c).

(** A call whose argument keeps the state safe: a compaction with a
    source and a destination below [MaxUint32], a writer state whose
    level-0 entries are of the compacted kind, any finished run. *)
Definition safe_call (call : Call) : Prop :=
  match call with
  | CallSubmit compaction =>
      sources compaction <> [] /\ destination compaction < MaxUint32
  | CallRefresh writerState => l0_compacted_kind (l0 writerState)
  | CallFinish _ => True
  end.

(* ================================================================== *)
(** ** Sample data                                                    *)
(* ================================================================== *)

Module sample.

Definition ulid1 : ulid.ULID :=
  [1; 86; 62; 58; 181; 211; 214; 118; 76; 97; 239; 185; 147; 2; 189; 91].
Definition ulid2 : ulid.ULID :=
  [1; 86; 62; 58; 181; 211; 214; 118; 76; 97; 239; 185; 147; 2; 189; 92].
Definition ulid3 : ulid.ULID :=
  [1; 86; 62; 58; 181; 211; 214; 118; 76; 97; 239; 185; 147; 2; 189; 93].

Definition sst1 : SSTableHandle := mkSSTableHandle (newSSTableIDCompacted ulid1) 1.
Definition sst2 : SSTableHandle := mkSSTableHandle (newSSTableIDCompacted ulid2) 2.
Definition sst3 : SSTableHandle := mkSSTableHandle (newSSTableIDCompacted ulid3) 3.

Definition emptyDB : CoreDBState :=
  {| l0 := []; l0LastCompacted := None; compacted := [];
     nextWalSstID := 1; lastCompactedWalSSTID := 0 |}.

(** Two level-0 files, newest first, and the runs 5 and 3. *)
Definition db : CoreDBState :=
  {| l0 := [sst2; sst1]; l0LastCompacted := None;
     compacted := [mkSortedRun 5 []; mkSortedRun 3 []];
     nextWalSstID := 4; lastCompactedWalSSTID := 3 |}.

(** What the writer holds later: one more level-0 file. *)
Definition writerDB : CoreDBState :=
  {| l0 := [sst3; sst2; sst1]; l0LastCompacted := None;
     compacted := [mkSortedRun 5 []; mkSortedRun 3 []];
     nextWalSstID := 6; lastCompactedWalSSTID := 5 |}.

(** Level 0 compacted into the new run 6, and a job without sources. *)
Definition l0ToRun6 : Compaction :=
  newCompaction [newSourceIDSST ulid2; newSourceIDSST ulid1] 6.
Definition emptyJob : Compaction := newCompaction [] 7.

(** The runs 5 and 3 merged into run 3. *)
Definition runsTo3 : Compaction :=
  newCompaction [newSourceIDSortedRun 5; newSourceIDSortedRun 3] 3.

(** The files of [TestManySstSRIter], the file of [TestOneSstSRIter]
    and a store that holds them. *)
Definition file1 : list KV := [mkKV "key1" "value1"; mkKV "key2" "value2"].
Definition file2 : list KV := [mkKV "key3" "value3"].
Definition file3 : list KV :=
  [mkKV "key1" "value1"; mkKV "key2" "value2"; mkKV "key3" "value3"].

Definition store : TableStore := fun sst =>
  if decide (sst = sst1) then Some file1
  else if decide (sst = sst2) then Some file2
  else if decide (sst = sst3) then Some file3
  else None.

Definition run : SortedRun := mkSortedRun 0 [sst1; sst2].
Definition oneFileRun : SortedRun := mkSortedRun 0 [sst3].

End sample.

(* ================================================================== *)
(** * Properties                                                      *)
(* ================================================================== *)

(** ** Decimal rendering and parsing *)

Section Strconv.
Import strconv.

Lemma digitChar_spec d :
  0 <= d < 10 ->
  isDigit (digitChar d) = true /\ digitVal (digitChar d) = d /\
  Ascii.eqb (digitChar d) "-" = false /\ Ascii.eqb (digitChar d) "+" = false.
Proof.
  intros Hd.
  assert (Hc : d = 0 \/ d = 1 \/ d = 2 \/ d = 3 \/ d = 4 \/
               d = 5 \/ d = 6 \/ d = 7 \/ d = 8 \/ d = 9) by lia.
  repeat (destruct Hc as [-> | Hc]); try subst d; vm_compute; auto.
Qed.

Lemma parseLoop_digit d cs n :
  0 <= d < 10 -> 0 <= n -> n * 10 + d <= MaxUint64 ->
  parseLoop (digitChar d :: cs) n = parseLoop cs (n * 10 + d).
Proof.
  intros Hd Hn Hmax.
  destruct (digitChar_spec d Hd) as (Hdig & Hval & _).
  cbn [parseLoop]. rewrite Hdig, Hval. cbn [negb].
  unfold MaxUint64 in *.
  destruct (Z.leb_spec (18446744073709551615 / 10 + 1) n) as [Hge | _].
  - change (18446744073709551615 / 10 + 1) with 1844674407370955162 in Hge. lia.
  - destruct (Z.ltb_spec 18446744073709551615 (n * 10 + d)); [lia | reflexivity].
Qed.

(** Parsing the digits written by [formatUint] gives the number back. *)
Lemma parseLoop_formatUint fuel : forall n acc,
  0 <= n <= MaxUint64 -> n < 10 ^ Z.of_nat fuel ->
  parseLoop (formatUint fuel n acc) 0 = parseLoop acc n.
Proof.
  induction fuel as [| fuel IH]; intros n acc Hn Hlt.
  - change (10 ^ Z.of_nat 0) with 1 in Hlt.
    assert (n = 0) as -> by lia. reflexivity.
  - cbn [formatUint].
    destruct (Z.ltb_spec n 10) as [Hsmall | Hbig].
    + rewrite Z.mod_small by lia.
      rewrite parseLoop_digit by (unfold MaxUint64 in *; lia).
      f_equal.
    + rewrite IH.
      * rewrite parseLoop_digit.
        -- f_equal. pose proof (Z.div_mod n 10). lia.
        -- apply Z.mod_pos_bound; lia.
        -- apply Z.div_pos; lia.
        -- pose proof (Z.div_mod n 10). lia.
      * split; [apply Z.div_pos; lia |].
        apply Z.le_trans with n; [| lia].
        apply Z.div_le_upper_bound; lia.
      * apply Z.div_lt_upper_bound; [lia |].
        rewrite Nat2Z.inj_succ, Z.pow_succ_r in Hlt by lia. lia.
Qed.

Lemma formatUint_head fuel : forall n acc,
  0 <= n ->
  exists d cs, 0 <= d < 10 /\ formatUint (S fuel) n acc = digitChar d :: cs.
Proof.
  induction fuel as [| fuel IH]; intros n acc Hn.
  - cbn [formatUint]. exists (n mod 10), acc.
    split; [apply Z.mod_pos_bound; lia |].
    destruct (n <? 10); reflexivity.
  - remember (S fuel) as fuel1. cbn [formatUint].
    destruct (Z.ltb_spec n 10).
    + exists (n mod 10), acc. split; [apply Z.mod_pos_bound; lia | reflexivity].
    + subst fuel1. apply IH. apply Z.div_pos; lia.
Qed.

Example Itoa_MaxUint32 : Itoa MaxUint32 = "4294967295"%string.
Proof. reflexivity. Qed.

Example Itoa_negative : Itoa (-12) = "-12"%string.
Proof. reflexivity. Qed.

Example Atoi_signed : Atoi "+17" = (17, None) /\ Atoi "-17" = (-17, None).
Proof. split; reflexivity. Qed.

Example Atoi_syntax :
  Atoi "" = (0, Some ErrSyntax) /\ Atoi "-" = (0, Some ErrSyntax) /\
  Atoi "12a" = (0, Some ErrSyntax).
Proof. repeat split; reflexivity. Qed.

Example Atoi_range :
  Atoi "9223372036854775808" = (MaxInt64, Some ErrRange) /\
  Atoi "-9223372036854775808" = (MinInt64, None) /\
  Atoi "-9223372036854775809" = (MinInt64, Some ErrRange).
Proof. repeat split; reflexivity. Qed.

(** [Atoi] reads back what [Itoa] writes, for a number that is not
    negative. *)
Lemma Atoi_Itoa n : 0 <= n <= MaxInt64 -> Atoi (Itoa n) = (n, None).
Proof.
  intros Hn. unfold Atoi, ParseInt, Itoa.
  destruct (Z.ltb_spec n 0); [lia |].
  rewrite list_ascii_of_string_of_list_ascii.
  pose proof (parseLoop_formatUint 20 n []) as Hparse.
  destruct (formatUint_head 19 n [] ltac:(lia)) as (d & cs & Hd & Hfmt).
  rewrite Hfmt in *.
  destruct (digitChar_spec d Hd) as (_ & _ & Hminus & Hplus).
  rewrite Hminus, Hplus. cbn [orb negb andb].
  unfold ParseUint. rewrite Hparse.
  - cbn [parseLoop].
    unfold MaxInt64 in *.
    destruct (Z.leb_spec (9223372036854775807 + 1) n); [lia | reflexivity].
  - unfold MaxInt64, MaxUint64 in *. lia.
  - unfold MaxInt64 in *. change (10 ^ Z.of_nat 20) with 100000000000000000000. lia.
Qed.

End Strconv.

(** ** The text form of a ULID *)

Section Ulid.
Import ulid.

Example String_sample :
  String_ sample.ulid1 = "01ARZ3NDEKTSV4RRFFQ69G5FAV"%string.
Proof. reflexivity. Qed.

Example Parse_lower_case :
  Parse "01arz3ndektsv4rrffq69g5fav" = (sample.ulid1, None).
Proof. reflexivity. Qed.

Example Parse_errors :
  Parse "01ARZ3NDEKTSV4RRFFQ69G5FA" = (zero, Some ErrDataSize) /\
  Parse "81ARZ3NDEKTSV4RRFFQ69G5FAV" = (zero, Some ErrOverflow).
Proof. split; reflexivity. Qed.

Lemma all_bytes_spec f :
  all_bytes f = true -> forall a, 0 <= a < 256 -> f a = true.
Proof.
  unfold all_bytes. rewrite forallb_forall. intros Hall a Ha.
  apply Hall, list_elem_of_In, elem_of_seqZ. lia.
Qed.

Lemma all_bytes2_spec (f : Z -> Z -> bool) :
  all_bytes (fun a => all_bytes (f a)) = true ->
  forall a b, 0 <= a < 256 -> 0 <= b < 256 -> f a b = true.
Proof.
  intros Hall a b Ha Hb.
  apply (all_bytes_spec (f a)); [| exact Hb].
  apply (all_bytes_spec (fun a => all_bytes (f a))); assumption.
Qed.

Ltac by_bytes1 a :=
  apply Z.eqb_eq;
  match goal with
  | |- ?e = true =>
      let f := eval pattern a in e in
      match f with
      | ?g _ => apply (all_bytes_spec g); [vm_compute; reflexivity | assumption]
      end
  end.

Ltac by_bytes2 a b :=
  apply Z.eqb_eq;
  match goal with
  | |- ?e = true =>
      let f := eval pattern a, b in e in
      match f with
      | ?g _ _ =>
          apply (all_bytes2_spec g); [vm_compute; reflexivity | assumption | assumption]
      end
  end.

Local Abbreviation byte a := (0 <= a < 256).

(** The first character never exceeds ['7']. *)
Lemma first_char_small a :
  byte a -> (55 <? nat_of_ascii (enc ((a & 224) >> 5)))%nat = false.
Proof.
  intros Ha.
  enough (H : (if (55 <? nat_of_ascii (enc ((a & 224) >> 5)))%nat then 1 else 0) = 0)
    by (destruct (55 <? _)%nat; congruence).
  by_bytes1 a.
Qed.

(** Byte 0 comes back from the first two characters. *)
Lemma byte_first a :
  byte a ->
  to_byte (to_byte (dec (enc ((a & 224) >> 5)) << 5) .| dec (enc (a & 31))) = a.
Proof. intros Ha. by_bytes1 a. Qed.

(** The five bytes [g0 .. g4] of a group and the eight characters
    written for them; each lemma is one byte that [Parse] rebuilds, or
    one of the parts it is made of. *)
Lemma group_byte0 g0 g1 :
  byte g0 -> byte g1 ->
  to_byte (to_byte (dec (enc ((g0 & 248) >> 3)) << 3)
           .| (dec (enc (((g0 & 7) << 2) .| ((g1 & 192) >> 6))) >> 2)) = g0.
Proof. intros H0 H1. by_bytes2 g0 g1. Qed.

Lemma group_part1_hi g0 g1 :
  byte g0 -> byte g1 ->
  to_byte (dec (enc (((g0 & 7) << 2) .| ((g1 & 192) >> 6))) << 6) = g1 & 192.
Proof. intros H0 H1. by_bytes2 g0 g1. Qed.

Lemma group_part1_lo g1 g2 :
  byte g1 -> byte g2 ->
  dec (enc (((g1 & 1) << 4) .| ((g2 & 240) >> 4))) >> 4 = g1 & 1.
Proof. intros H1 H2. by_bytes2 g1 g2. Qed.

Lemma group_part1_mid g1 :
  byte g1 ->
  to_byte ((g1 & 192) .| to_byte (dec (enc ((g1 & 62) >> 1)) << 1) .| (g1 & 1)) = g1.
Proof. intros H1. by_bytes1 g1. Qed.

Lemma group_part2_hi g1 g2 :
  byte g1 -> byte g2 ->
  to_byte (dec (enc (((g1 & 1) << 4) .| ((g2 & 240) >> 4))) << 4) = g2 & 240.
Proof. intros H1 H2. by_bytes2 g1 g2. Qed.

Lemma group_part2_lo g2 g3 :
  byte g2 -> byte g3 ->
  dec (enc (((g2 & 15) << 1) .| ((g3 & 128) >> 7))) >> 1 = g2 & 15.
Proof. intros H2 H3. by_bytes2 g2 g3. Qed.

Lemma group_part2_mid g2 :
  byte g2 -> to_byte ((g2 & 240) .| (g2 & 15)) = g2.
Proof. intros H2. by_bytes1 g2. Qed.

Lemma group_part3_hi g2 g3 :
  byte g2 -> byte g3 ->
  to_byte (dec (enc (((g2 & 15) << 1) .| ((g3 & 128) >> 7))) << 7) = g3 & 128.
Proof. intros H2 H3. by_bytes2 g2 g3. Qed.

Lemma group_part3_lo g3 g4 :
  byte g3 -> byte g4 ->
  dec (enc (((g3 & 3) << 3) .| ((g4 & 224) >> 5))) >> 3 = g3 & 3.
Proof. intros H3 H4. by_bytes2 g3 g4. Qed.

Lemma group_part3_mid g3 :
  byte g3 ->
  to_byte ((g3 & 128) .| to_byte (dec (enc ((g3 & 124) >> 2)) << 2) .| (g3 & 3)) = g3.
Proof. intros H3. by_bytes1 g3. Qed.

Lemma group_byte4 g3 g4 :
  byte g3 -> byte g4 ->
  to_byte (to_byte (dec (enc (((g3 & 3) << 3) .| ((g4 & 224) >> 5))) << 5)
           .| dec (enc (g4 & 31))) = g4.
Proof. intros H3 H4. by_bytes2 g3 g4. Qed.

Lemma group_byte1 g0 g1 g2 :
  byte g0 -> byte g1 -> byte g2 ->
  to_byte (to_byte (dec (enc (((g0 & 7) << 2) .| ((g1 & 192) >> 6))) << 6)
           .| to_byte (dec (enc ((g1 & 62) >> 1)) << 1)
           .| (dec (enc (((g1 & 1) << 4) .| ((g2 & 240) >> 4))) >> 4)) = g1.
Proof.
  intros H0 H1 H2.
  rewrite group_part1_hi, group_part1_lo by assumption.
  apply group_part1_mid; assumption.
Qed.

Lemma group_byte2 g1 g2 g3 :
  byte g1 -> byte g2 -> byte g3 ->
  to_byte (to_byte (dec (enc (((g1 & 1) << 4) .| ((g2 & 240) >> 4))) << 4)
           .| (dec (enc (((g2 & 15) << 1) .| ((g3 & 128) >> 7))) >> 1)) = g2.
Proof.
  intros H1 H2 H3.
  rewrite group_part2_hi, group_part2_lo by assumption.
  apply group_part2_mid; assumption.
Qed.

Lemma group_byte3 g2 g3 g4 :
  byte g2 -> byte g3 -> byte g4 ->
  to_byte (to_byte (dec (enc (((g2 & 15) << 1) .| ((g3 & 128) >> 7))) << 7)
           .| to_byte (dec (enc ((g3 & 124) >> 2)) << 2)
           .| (dec (enc (((g3 & 3) << 3) .| ((g4 & 224) >> 5))) >> 3)) = g3.
Proof.
  intros H2 H3 H4.
  rewrite group_part3_hi, group_part3_lo by assumption.
  apply group_part3_mid; assumption.
Qed.

(** [Parse] reads back what [String] writes. *)
Lemma Parse_String id : wf id -> Parse (String_ id) = (id, None).
Proof.
  intros [Hlen Hbytes].
  do 16 (destruct id as [| ? id]; [discriminate Hlen |]).
  destruct id; [| discriminate Hlen]. clear Hlen.
  repeat match goal with
         | H : Forall _ (_ :: _) |- _ => apply Forall_cons in H; destruct H
         end.
  unfold Parse, String_.
  rewrite list_ascii_of_string_of_list_ascii.
  cbn [length Nat.eqb negb nth at_].
  rewrite first_char_small by assumption.
  rewrite byte_first by assumption.
  rewrite !group_byte0, !group_byte1, !group_byte2, !group_byte3, !group_byte4
    by assumption.
  reflexivity.
Qed.

End Ulid.

(** ** Source ids *)

Lemma sortedRunID_newSourceIDSortedRun id :
  is_uint32 id -> sortedRunID (newSourceIDSortedRun id) = Some id.
Proof.
  intros Hid. unfold sortedRunID, newSourceIDSortedRun, int_of_uint32.
  cbn [src_typ src_value]. rewrite bool_decide_eq_true_2 by reflexivity. cbn [negb].
  unfold is_uint32, MaxUint32 in Hid.
  rewrite Atoi_Itoa by (unfold MaxInt64; lia).
  unfold to_uint32. rewrite Z.mod_small by lia. reflexivity.
Qed.

Lemma sstID_newSourceIDSST id :
  ulid.wf id -> sstID (newSourceIDSST id) = Some id.
Proof.
  intros Hid. unfold sstID, newSourceIDSST.
  cbn [src_typ src_value]. rewrite bool_decide_eq_true_2 by reflexivity. cbn [negb].
  rewrite Parse_String by assumption. reflexivity.
Qed.

Lemma sstID_typ s id : sstID s = Some id -> src_typ s = SSTID.
Proof.
  unfold sstID. destruct (src_typ s); cbn; [discriminate | reflexivity].
Qed.

Lemma sortedRunID_typ s id : sortedRunID s = Some id -> src_typ s = SortedRunID.
Proof.
  unfold sortedRunID. destruct (src_typ s); cbn; [reflexivity | discriminate].
Qed.

Lemma sstID_sortedRunID_None s id : sstID s = Some id -> sortedRunID s = None.
Proof.
  intros H. apply sstID_typ in H. unfold sortedRunID. rewrite H. reflexivity.
Qed.

(** ** submitCompaction *)

Lemma oneOfTheSourceSRMatches_spec srcs dest :
  Forall wfSourceID srcs ->
  oneOfTheSourceSRMatches srcs dest = true <->
  exists s, s ∈ srcs /\ sortedRunID s = Some dest.
Proof.
  induction 1 as [| s srcs Hs _ IH]; cbn [oneOfTheSourceSRMatches].
  - split; [discriminate | intros (s & Hin & _); inversion Hin].
  - destruct Hs as [(id & Hid & ->) | (id & Hid & ->)].
    + pose proof (sortedRunID_newSourceIDSortedRun id Hid) as Hsr.
      cbn [newSourceIDSortedRun src_typ src_value]. cbn [bool_decide decide_rel].
      rewrite bool_decide_eq_true_2 by reflexivity.
      unfold int_of_uint32.
      unfold is_uint32, MaxUint32 in Hid.
      rewrite Atoi_Itoa by (unfold MaxInt64; lia). cbn [fst].
      unfold to_uint32. rewrite Z.mod_small by lia.
      destruct (Z.eqb_spec id dest) as [-> | Hne].
      * split; [| reflexivity]. intros _. eexists. split; [left | exact Hsr].
      * rewrite IH. split.
        -- intros (s & Hin & Hs). exists s. split; [right |]; assumption.
        -- intros (s & Hin & Hs). apply elem_of_cons in Hin as [-> | Hin].
           ++ rewrite Hsr in Hs. congruence.
           ++ eauto.
    + cbn [newSourceIDSST src_typ].
      rewrite bool_decide_eq_false_2 by discriminate.
      rewrite IH. split.
      * intros (s & Hin & Hs). exists s. split; [right |]; assumption.
      * intros (s & Hin & Hs). apply elem_of_cons in Hin as [-> | Hin].
        -- apply sortedRunID_typ in Hs. discriminate.
        -- eauto.
Qed.

Lemma checkDestination_spec srs compaction :
  checkDestination srs compaction = Some common.ErrInvalidCompaction <->
  (exists sr, sr ∈ srs /\ sr_id sr = destination compaction) /\
  oneOfTheSourceSRMatchesDestination compaction = false.
Proof.
  induction srs as [| sr srs IH]; cbn [checkDestination].
  - split; [discriminate | intros [(sr & Hin & _) _]; inversion Hin].
  - destruct (Z.eqb_spec (sr_id sr) (destination compaction)) as [Heq | Hne].
    + destruct (oneOfTheSourceSRMatchesDestination compaction); cbn [negb].
      * split; [discriminate | intros [_ H]; discriminate].
      * split; [| reflexivity]. intros _. split; [| reflexivity].
        exists sr. split; [left | assumption].
    + rewrite IH. split.
      * intros [(sr' & Hin & Hsr') Hno]. split; [| assumption].
        exists sr'. split; [right |]; assumption.
      * intros [(sr' & Hin & Hsr') Hno]. split; [| assumption].
        apply elem_of_cons in Hin as [-> | Hin]; [contradiction | eauto].
Qed.

Lemma checkDestination_error srs compaction err :
  checkDestination srs compaction = Some err -> err = common.ErrInvalidCompaction.
Proof. destruct err. reflexivity. Qed.

(** ** refreshDBState *)

Lemma mergeL0s_spec watermark writerL0 : forall mergedL0s,
  l0_compacted_kind writerL0 ->
  exists prefix rest,
    mergeL0s watermark writerL0 mergedL0s = Done (mergedL0s ++ prefix) /\
    writerL0 = prefix ++ rest /\
    Forall (fun sst => ~ matches_watermark watermark sst) prefix /\
    match rest with
    | [] => True
    | sst :: _ => matches_watermark watermark sst
    end.
Proof.
  induction writerL0 as [| sst writerL0 IH]; intros mergedL0s Hkind.
  - exists [], []. cbn. rewrite app_nil_r. auto.
  - apply Forall_cons in Hkind as [Hsst Hkind]. cbn beta in Hsst.
    cbn [mergeL0s]. rewrite (bool_decide_eq_true_2 _ Hsst).
    cbn [AssertTrue mbind outcome_bind].
    destruct (sst_id sst) as [wal | id] eqn:Hid; [discriminate Hsst |].
    cbn [compactedID mo.Get].
    destruct watermark as [w |]; cbn [mo.IsPresent mo.Get andb].
    + destruct (decide (id = w)) as [-> | Hne].
      * rewrite bool_decide_eq_true_2 by reflexivity.
        exists [], (sst :: writerL0). rewrite app_nil_r.
        repeat split; [constructor | eexists; reflexivity | ].
        unfold matches_watermark. rewrite Hid. reflexivity.
      * rewrite bool_decide_eq_false_2 by assumption.
        destruct (IH (mergedL0s ++ [sst]) Hkind) as (prefix & rest & Hrun & Heq & Hno & Hrest).
        exists (sst :: prefix), rest.
        rewrite Hrun, <- app_assoc. repeat split; [rewrite Heq; reflexivity | | assumption].
        constructor; [| assumption].
        unfold matches_watermark. rewrite Hid. cbn. intros [_ H]. congruence.
    + destruct (IH (mergedL0s ++ [sst]) Hkind) as (prefix & rest & Hrun & Heq & Hno & Hrest).
      exists (sst :: prefix), rest.
      rewrite Hrun, <- app_assoc. repeat split; [rewrite Heq; reflexivity | | assumption].
      constructor; [| assumption].
      unfold matches_watermark. intros [[w Hw] _]. discriminate.
Qed.

Lemma longest_prefix_before_intro watermark prefix rest :
  Forall (fun sst => ~ matches_watermark watermark sst) prefix ->
  match rest with
  | [] => True
  | sst :: _ => matches_watermark watermark sst
  end ->
  longest_prefix_before watermark (prefix ++ rest) prefix.
Proof.
  intros Hno Hrest. split; [apply prefix_app_r; reflexivity |].
  split; [assumption |].
  intros p Hp Hnop.
  destruct (prefix_weak_total p prefix (prefix ++ rest) Hp) as [H | [k Hk]];
    [apply prefix_app_r; reflexivity | assumption |].
  destruct k as [| sst k]; [rewrite app_nil_r in Hk; subst; reflexivity |].
  exfalso. destruct Hp as [tail Htail]. subst p.
  rewrite <- app_assoc in Htail. apply app_inv_head in Htail.
  destruct rest as [| sst' rest]; [discriminate |].
  injection Htail as <- _.
  apply Forall_app in Hnop as [_ Hnop].
  apply Forall_cons in Hnop as [Hnop _]. contradiction.
Qed.

(** ** finishCompaction *)

Lemma collectSources_spec srcs : forall compactionL0s compactionSRs,
  let '(L, R) := collectSources srcs compactionL0s compactionSRs in
  (forall id, id ∈ L <-> id ∈ compactionL0s \/ id ∈ omap sstID srcs) /\
  (forall id, id ∈ R <-> id ∈ compactionSRs \/ id ∈ omap sortedRunID srcs).
Proof.
  induction srcs as [| s srcs IH]; intros compactionL0s compactionSRs.
  - cbn. split; intros id; rewrite elem_of_nil; tauto.
  - cbn [collectSources omap list_omap].
    destruct (sstID s) as [u |] eqn:Hsst; cbn [mo.IsPresent mo.Get].
    + rewrite (sstID_sortedRunID_None s u Hsst).
      specialize (IH ({[u]} ∪ compactionL0s) compactionSRs).
      destruct (collectSources srcs _ _) as [L R]. destruct IH as [HL HS].
      split; intros id; [rewrite HL | rewrite HS];
        rewrite ?elem_of_union, ?elem_of_singleton, ?elem_of_cons; tauto.
    + destruct (sortedRunID s) as [i |] eqn:Hsr; cbn [mo.IsPresent mo.Get].
      * specialize (IH compactionL0s ({[i]} ∪ compactionSRs)).
        destruct (collectSources srcs _ _) as [L R]. destruct IH as [HL HS].
        split; intros id; [rewrite HL | rewrite HS];
        rewrite ?elem_of_union, ?elem_of_singleton, ?elem_of_cons; tauto.
      * apply IH.
Qed.

Lemma filterL0_spec (compaction : Compaction) (compactionL0s : gset ulid.ULID)
    (ssts : list SSTableHandle) :
  (forall id, id ∈ compactionL0s <-> id ∈ fileSources compaction) ->
  forall newL0,
  l0_compacted_kind ssts ->
  filterL0 compactionL0s ssts newL0 =
  Done (newL0 ++ filter (fun sst => ~ consumedFile compaction sst) ssts).
Proof.
  intros Hset. induction ssts as [| sst ssts IH]; intros newL0 Hkind.
  - cbn. rewrite app_nil_r. reflexivity.
  - apply Forall_cons in Hkind as [Hsst Hkind]. cbn beta in Hsst.
    cbn [filterL0].
    assert (Hcons : forall id, compactedID (sst_id sst) = Some id ->
                               consumedFile compaction sst <-> id ∈ compactionL0s).
    { intros id Hid. unfold consumedFile. rewrite Hid. symmetry. apply Hset. }
    destruct (sst_id sst) as [wal | id] eqn:Hid; [discriminate Hsst |].
    cbn [compactedID mo.IsPresent mo.Get AssertTrue mbind outcome_bind] in *.
    specialize (Hcons id eq_refl).
    destruct (decide (id ∈ compactionL0s)) as [Hin | Hnin].
    + rewrite bool_decide_eq_true_2 by assumption.
      rewrite filter_cons_False by (intros Hno; apply Hno, Hcons, Hin).
      apply IH, Hkind.
    + rewrite bool_decide_eq_false_2 by assumption.
      rewrite filter_cons_True by (rewrite Hcons; assumption).
      rewrite IH by assumption. rewrite <- app_assoc. reflexivity.
Qed.

Lemma insertionPoint_spec outputSR srs :
  first_position_at_most outputSR srs (insertionPoint outputSR srs).
Proof.
  induction srs as [| sr srs [IHlt IHat]]; cbn [insertionPoint].
  - split; [intros j sr Hj; inversion Hj | left; reflexivity].
  - destruct (Z.leb_spec (sr_id sr) (sr_id outputSR)) as [Hle | Hgt].
    + split; [intros j sr' _ Hlt; lia |].
      right. exists sr. split; [reflexivity | assumption].
    + split.
      * intros [| j] sr' Hj Hlt; cbn in Hj.
        -- injection Hj as <-. lia.
        -- apply (IHlt j); [assumption | lia].
      * destruct IHat as [-> | (sr' & Hat & Hle)]; [left; reflexivity |].
        right. exists sr'. split; assumption.
Qed.

(** The loop once the output run is in: the runs that are not consumed
    are appended. *)
Lemma rebuildCompacted_inserted (compaction : Compaction) (compactionSRs : gset Z)
    (outputSR : SortedRun) (srs : list SortedRun) :
  (forall sr, sr_id sr ∈ compactionSRs <-> consumedRun compaction sr) ->
  forall newCompacted,
  rebuildCompacted compactionSRs outputSR srs newCompacted true =
  newCompacted ++ filter (fun sr => ~ consumedRun compaction sr) srs.
Proof.
  intros Hset. induction srs as [| sr srs IH]; intros newCompacted.
  - cbn. rewrite app_nil_r. reflexivity.
  - cbn [rebuildCompacted negb andb].
    destruct (decide (sr_id sr ∈ compactionSRs)) as [Hin | Hnin].
    + rewrite bool_decide_eq_true_2 by assumption.
      rewrite filter_cons_False by (intros Hno; apply Hno, Hset, Hin).
      apply IH.
    + rewrite bool_decide_eq_false_2 by assumption.
      rewrite filter_cons_True by (rewrite <- Hset; assumption).
      rewrite IH, <- app_assoc. reflexivity.
Qed.

(** The whole loop: the output run goes to the insertion point. *)
Lemma rebuildCompacted_spec (compaction : Compaction) (compactionSRs : gset Z)
    (outputSR : SortedRun) (srs : list SortedRun) :
  (forall sr, sr_id sr ∈ compactionSRs <-> consumedRun compaction sr) ->
  forall newCompacted,
  rebuildCompacted compactionSRs outputSR srs newCompacted false =
  newCompacted
  ++ filter (fun sr => ~ consumedRun compaction sr) (take (insertionPoint outputSR srs) srs)
  ++ outputSR ::
  filter (fun sr => ~ consumedRun compaction sr) (drop (insertionPoint outputSR srs) srs).
Proof.
  intros Hset. induction srs as [| sr srs IH]; intros newCompacted.
  - reflexivity.
  - cbn [rebuildCompacted insertionPoint negb andb].
    rewrite Z.geb_leb.
    destruct (Z.leb_spec (sr_id sr) (sr_id outputSR)) as [Hle | Hgt].
    + cbn [take drop]. rewrite filter_nil. cbn [app].
      destruct (decide (sr_id sr ∈ compactionSRs)) as [Hin | Hnin].
      * rewrite bool_decide_eq_true_2 by assumption.
        rewrite (rebuildCompacted_inserted compaction) by assumption.
        rewrite filter_cons_False by (intros Hno; apply Hno, Hset, Hin).
        rewrite <- app_assoc. reflexivity.
      * rewrite bool_decide_eq_false_2 by assumption.
        rewrite (rebuildCompacted_inserted compaction) by assumption.
        rewrite filter_cons_True by (rewrite <- Hset; assumption).
        rewrite <- !app_assoc. reflexivity.
    + cbn [take drop].
      destruct (decide (sr_id sr ∈ compactionSRs)) as [Hin | Hnin].
      * rewrite bool_decide_eq_true_2 by assumption.
        rewrite filter_cons_False by (intros Hno; apply Hno, Hset, Hin).
        apply IH.
      * rewrite bool_decide_eq_false_2 by assumption.
        rewrite filter_cons_True by (rewrite <- Hset; assumption).
        rewrite IH, <- app_assoc. reflexivity.
Qed.

(** What the order assertion checks. *)
Lemma assertInIDOrderFrom_Done lastSortedRunID srs :
  assertInIDOrderFrom lastSortedRunID srs = Done tt <->
  StronglySorted (fun a b => sr_id b < sr_id a) srs /\
  Forall (fun sr => sr_id sr < lastSortedRunID) srs.
Proof.
  revert lastSortedRunID. induction srs as [| sr srs IH]; intros lastSortedRunID.
  - cbn. split; [intros _; split; constructor | reflexivity].
  - cbn [assertInIDOrderFrom].
    rewrite StronglySorted_cons, Forall_cons.
    destruct (Z.ltb_spec (sr_id sr) lastSortedRunID) as [Hlt | Hge];
      cbn [AssertTrue mbind outcome_bind].
    + rewrite IH. split.
      * intros [Hsorted Hall]. repeat split; try assumption.
        eapply Forall_impl; [exact Hall |]. cbn. intros; lia.
      * intros [[Hall Hsorted] [_ Hbelow]]. split; assumption.
    + split; [discriminate | intros [_ [Hlt _]]; lia].
Qed.

Lemma assertInIDOrderFrom_cases lastSortedRunID srs :
  assertInIDOrderFrom lastSortedRunID srs = Done tt \/
  assertInIDOrderFrom lastSortedRunID srs =
    Panicked "compacted sortedRuns not in decreasing order".
Proof.
  revert lastSortedRunID. induction srs as [| sr srs IH]; intros lastSortedRunID.
  - left. reflexivity.
  - cbn [assertInIDOrderFrom].
    destruct (sr_id sr <? lastSortedRunID); cbn [AssertTrue mbind outcome_bind].
    + apply IH.
    + right. reflexivity.
Qed.

Lemma StronglySorted_NoDup_ids srs :
  StronglySorted (fun a b => sr_id b < sr_id a) srs -> NoDup (sr_id <$> srs).
Proof.
  induction 1 as [| sr srs _ IH Hall]; cbn; constructor; [| assumption].
  rewrite list_elem_of_fmap. intros (sr' & Heq & Hin).
  rewrite Forall_forall in Hall. specialize (Hall sr' Hin). lia.
Qed.

Lemma assertCompactedSRsInIDOrder_Done srs :
  assertCompactedSRsInIDOrder srs = Done tt <->
  strictly_decreasing_by_id srs /\ Forall (fun sr => sr_id sr < MaxUint32) srs.
Proof.
  unfold assertCompactedSRsInIDOrder, strictly_decreasing_by_id.
  rewrite assertInIDOrderFrom_Done. split.
  - intros [Hs Hall]. auto using StronglySorted_NoDup_ids.
  - intros [[Hs _] Hall]. auto.
Qed.

(** [finishCompaction] for a registered compaction, with its loops
    replaced by what they compute. *)
Lemma finishCompaction_registered c outputSR compaction :
  compactions c !! sr_id outputSR = Some compaction ->
  l0_compacted_kind (l0 (dbState c)) ->
  finishCompaction c outputSR =
  (_ ← assertCompactedSRsInIDOrder (rebuilt compaction outputSR (compacted (dbState c)));
   _ ← AssertTrue (0 <? length (sources compaction))%nat "compaction should not be empty";
   match sources compaction with
   | [] => Panicked "index out of range"
   | firstSource :: _ =>
       Done {| dbState :=
                 {| l0 := filter (fun sst => ~ consumedFile compaction sst) (l0 (dbState c));
                    l0LastCompacted :=
                      if mo.IsPresent (sstID firstSource)
                      then Some (mo.Get ulid.zero (sstID firstSource))
                      else l0LastCompacted (dbState c);
                    compacted := rebuilt compaction outputSR (compacted (dbState c));
                    nextWalSstID := nextWalSstID (dbState c);
                    lastCompactedWalSSTID := lastCompactedWalSSTID (dbState c) |};
               compactions := delete (sr_id outputSR) (compactions c) |}
   end).
Proof.
  intros Hreg Hkind. unfold finishCompaction. rewrite Hreg.
  pose proof (collectSources_spec (sources compaction) ∅ ∅) as Hsets.
  destruct (collectSources (sources compaction) ∅ ∅) as [L R].
  destruct Hsets as [HL HR].
  cbn [clone l0 compacted l0LastCompacted nextWalSstID lastCompactedWalSSTID].
  rewrite (filterL0_spec compaction L) by
    (try assumption; intros id; rewrite HL, elem_of_empty; unfold fileSources; tauto).
  cbn [mbind outcome_bind app].
  rewrite (rebuildCompacted_spec compaction).
  - reflexivity.
  - intros sr. unfold consumedRun, sortedRunSources.
    rewrite elem_of_union, elem_of_singleton, HR, elem_of_empty. tauto.
Qed.

(** The runs in front of the insertion point are above the output run,
    and in a list in decreasing order the others are not. *)
Lemma take_insertionPoint outputSR srs :
  Forall (fun sr => sr_id outputSR < sr_id sr) (take (insertionPoint outputSR srs) srs).
Proof.
  induction srs as [| sr srs IH]; cbn [insertionPoint]; [constructor |].
  destruct (Z.leb_spec (sr_id sr) (sr_id outputSR)); cbn [take]; constructor;
    [lia | assumption].
Qed.

Lemma drop_insertionPoint outputSR srs :
  StronglySorted (fun a b => sr_id b < sr_id a) srs ->
  Forall (fun sr => sr_id sr <= sr_id outputSR) (drop (insertionPoint outputSR srs) srs).
Proof.
  induction 1 as [| sr srs _ IH Hall]; cbn [insertionPoint]; [constructor |].
  destruct (Z.leb_spec (sr_id sr) (sr_id outputSR)); cbn [drop]; [| assumption].
  constructor; [assumption |].
  eapply Forall_impl; [exact Hall |]. cbn. intros; lia.
Qed.

Lemma StronglySorted_filter {A} (R : relation A) (P : A -> Prop)
    `{forall x, Decision (P x)} (l : list A) :
  StronglySorted R l -> StronglySorted R (filter P l).
Proof.
  induction 1 as [| x l _ IH Hall]; [constructor |].
  rewrite filter_cons. destruct (decide (P x)); [| assumption].
  constructor; [assumption |].
  rewrite Forall_forall in *. intros y Hy.
  apply list_elem_of_filter in Hy as [_ Hy]. auto.
Qed.

Lemma StronglySorted_take_drop {A} (R : relation A) (n : nat) (l : list A) :
  StronglySorted R l -> StronglySorted R (take n l) /\ StronglySorted R (drop n l).
Proof.
  intros Hs. rewrite <- (take_drop n l) in Hs.
  apply StronglySorted_app in Hs. tauto.
Qed.

(** For a list in decreasing order and an entry keyed by its
    destination, the order assertion of [finishCompaction] holds. *)
Lemma rebuilt_in_order compaction outputSR srs :
  strictly_decreasing_by_id srs ->
  Forall (fun sr => sr_id sr < MaxUint32) srs ->
  destination compaction = sr_id outputSR ->
  sr_id outputSR < MaxUint32 ->
  assertCompactedSRsInIDOrder (rebuilt compaction outputSR srs) = Done tt.
Proof.
  intros [Hsorted _] Hbelow Hdest Hout.
  apply assertInIDOrderFrom_Done. unfold rebuilt. split.
  - destruct (StronglySorted_take_drop _ (insertionPoint outputSR srs) srs Hsorted)
      as [Htake Hdrop].
    pose proof (take_insertionPoint outputSR srs) as Habove.
    pose proof (drop_insertionPoint outputSR srs Hsorted) as Hnot_above.
    rewrite Forall_forall in Habove, Hnot_above.
    assert (Hafter : forall sr,
      sr ∈ filter (fun sr => ~ consumedRun compaction sr)
             (drop (insertionPoint outputSR srs) srs) ->
      sr_id sr < sr_id outputSR).
    { intros sr Hin. apply list_elem_of_filter in Hin as [Hkeep Hin].
      specialize (Hnot_above sr Hin).
      assert (sr_id sr <> destination compaction)
        by (intros Heq; apply Hkeep; right; exact Heq).
      lia. }
    apply StronglySorted_app_2.
    + intros a b Ha Hb. apply list_elem_of_filter in Ha as [_ Ha].
      specialize (Habove a Ha).
      apply elem_of_cons in Hb as [-> | Hb]; [lia |].
      specialize (Hafter b Hb). lia.
    + apply StronglySorted_filter, Htake.
    + constructor; [apply StronglySorted_filter, Hdrop |].
      rewrite Forall_forall. exact Hafter.
  - pose proof (Forall_take _ (insertionPoint outputSR srs) _ Hbelow) as Htake.
    pose proof (Forall_drop _ (insertionPoint outputSR srs) _ Hbelow) as Hdrop.
    rewrite Forall_forall in Htake, Hdrop.
    rewrite Forall_app, Forall_cons. repeat split; try assumption;
      rewrite Forall_forall; intros sr Hin;
      apply list_elem_of_filter in Hin as [_ Hin]; auto.
Qed.

(** ** The invariant of the compacted list *)

Lemma succeeds_keeps_order c call c' :
  succeeds c call c' ->
  strictly_decreasing_by_id (compacted (dbState c)) ->
  strictly_decreasing_by_id (compacted (dbState c')).
Proof.
  destruct call as [compaction | writerState | outputSR]; cbn [succeeds].
  - unfold submitCompaction.
    destruct (compactions c !! destination compaction); [discriminate |].
    destruct (checkDestination _ _); [discriminate |].
    intros [= <-]. auto.
  - unfold refreshDBState.
    destruct (mergeL0s _ _ _) as [mergedL0s | msg]; cbn [mbind outcome_bind];
      [| discriminate].
    intros [= <-]. auto.
  - unfold finishCompaction.
    destruct (compactions c !! sr_id outputSR) as [compaction |];
      [| intros [= <-]; auto].
    destruct (collectSources _ _ _) as [L R].
    destruct (filterL0 _ _ _) as [newL0 | msg]; cbn [mbind outcome_bind];
      [| discriminate].
    destruct (assertCompactedSRsInIDOrder _) as [[] | msg] eqn:Horder;
      cbn [mbind outcome_bind]; [| discriminate].
    destruct (AssertTrue _ _) as [[] | msg]; cbn [mbind outcome_bind];
      [| discriminate].
    destruct (sources compaction) as [| firstSource rest]; [discriminate |].
    intros [= <-] _. cbn [dbState compacted].
    apply assertCompactedSRsInIDOrder_Done in Horder. tauto.
Qed.

(** C1: for a state whose compacted list is strictly decreasing by id
    with no duplicate ids, after any sequence of successful
    submitCompaction, refreshDBState and finishCompaction calls the
    compacted list of the current dbState is still strictly decreasing by
    id with no duplicate ids. *)
Theorem compacted_stays_in_order c calls c' :
  strictly_decreasing_by_id (compacted (dbState c)) ->
  successful_calls c calls c' ->
  strictly_decreasing_by_id (compacted (dbState c')).
Proof.
  intros Hinv Hcalls. induction Hcalls as [c | c call c1 calls c2 Hcall _ IH].
  - exact Hinv.
  - apply IH. eapply succeeds_keeps_order; eassumption.
Qed.

Lemma sample_db_in_order : strictly_decreasing_by_id (compacted sample.db).
Proof.
  split; cbn.
  - repeat constructor; cbn; lia.
  - repeat constructor; rewrite ?elem_of_cons, ?elem_of_nil; intuition lia.
Qed.

Lemma compacted_stays_in_order_witness :
  exists c',
    successful_calls (newCompactorState sample.db)
      [CallSubmit sample.l0ToRun6; CallRefresh sample.writerDB;
       CallFinish (mkSortedRun 6 [sample.sst1]); CallSubmit sample.runsTo3;
       CallFinish (mkSortedRun 3 [sample.sst2])] c' /\
    sr_id <$> compacted (dbState c') = [6; 3] /\
    strictly_decreasing_by_id (compacted (dbState c')).
Proof.
  eexists. split; [| split].
  - repeat (eapply calls_cons; [cbn [succeeds]; vm_compute; reflexivity |]).
    apply calls_nil.
  - vm_compute. reflexivity.
  - eapply (compacted_stays_in_order (newCompactorState sample.db)
              [CallSubmit sample.l0ToRun6; CallRefresh sample.writerDB;
               CallFinish (mkSortedRun 6 [sample.sst1]); CallSubmit sample.runsTo3;
               CallFinish (mkSortedRun 3 [sample.sst2])]);
      [exact sample_db_in_order |].
    repeat (eapply calls_cons; [cbn [succeeds]; vm_compute; reflexivity |]).
    apply calls_nil.
Defined.

(** ** finishCompaction on a registered compaction *)

Lemma sample_ulid_wf :
  ulid.wf sample.ulid1 /\ ulid.wf sample.ulid2 /\ ulid.wf sample.ulid3.
Proof. repeat split; repeat constructor; lia. Qed.

(** C2, the claim as it is stated, fails: a compaction that was
    submitted without sources is registered, and [finishCompaction] stops
    at its assertion instead of replacing the state. *)
Lemma finishCompaction_replaces_counterexample :
  let c := fst (submitCompaction (newCompactorState sample.emptyDB) sample.emptyJob) in
  compactions c !! sr_id (mkSortedRun 7 []) = Some sample.emptyJob /\
  finishCompaction c (mkSortedRun 7 []) = Panicked "compaction should not be empty" /\
  ~ finishCompaction_replaces c (mkSortedRun 7 []) sample.emptyJob.
Proof.
  cbn zeta. split; [reflexivity |]. split; [vm_compute; reflexivity |].
  intros (c' & i & Hdone & _). vm_compute in Hdone. discriminate Hdone.
Qed.

(** C2, amended: for a registered compaction keyed by outputSortedRun.id
    whose sources list is not empty, in a state whose level-0 entries are
    all of the compacted kind and for which the rebuilt list is strictly
    decreasing by id with every id below [MaxUint32], finishCompaction
    replaces dbState with a state in which (a) l0 is the previous l0
    without the files whose ids are file-type sources, in order, (b)
    compacted is the previous list without the runs whose id is a
    sorted-run-type source or the destination, with outputSortedRun at
    the first position where an existing run's id is at most its id, or
    at the end, and (c) the entry is deleted from compactions. *)
Theorem finishCompaction_replaces_registered c outputSR compaction :
  compactions c !! sr_id outputSR = Some compaction ->
  sources compaction <> [] ->
  l0_compacted_kind (l0 (dbState c)) ->
  strictly_decreasing_by_id (rebuilt compaction outputSR (compacted (dbState c))) ->
  Forall (fun sr => sr_id sr < MaxUint32)
    (rebuilt compaction outputSR (compacted (dbState c))) ->
  finishCompaction_replaces c outputSR compaction.
Proof.
  intros Hreg Hsrc Hkind Hsorted Hbelow.
  unfold finishCompaction_replaces.
  rewrite (finishCompaction_registered c outputSR compaction Hreg Hkind).
  rewrite (proj2 (assertCompactedSRsInIDOrder_Done _) (conj Hsorted Hbelow)).
  destruct (sources compaction) as [| firstSource rest]; [contradiction |].
  cbn [length Nat.ltb Nat.leb AssertTrue mbind outcome_bind].
  eexists. exists (insertionPoint outputSR (compacted (dbState c))).
  split; [reflexivity |]. cbn [dbState l0 compacted compactions].
  split; [reflexivity |].
  split; [apply insertionPoint_spec |].
  split; reflexivity.
Qed.

Lemma finishCompaction_replaces_registered_witness :
  let c := fst (submitCompaction (newCompactorState sample.db) sample.l0ToRun6) in
  finishCompaction_replaces c (mkSortedRun 6 [sample.sst1]) sample.l0ToRun6.
Proof.
  cbn zeta. apply finishCompaction_replaces_registered.
  - vm_compute. reflexivity.
  - vm_compute. discriminate.
  - repeat constructor.
  - apply assertCompactedSRsInIDOrder_Done. vm_compute. reflexivity.
  - apply assertCompactedSRsInIDOrder_Done. vm_compute. reflexivity.
Defined.

(** The rest of what [finishCompaction] does with the watermark: it is
    the id of the first source when that is a file and the old one when
    that is a sorted run, whenever the order assertion holds. *)
Lemma finishCompaction_watermark c outputSR compaction firstSource rest :
  compactions c !! sr_id outputSR = Some compaction ->
  sources compaction = firstSource :: rest ->
  l0_compacted_kind (l0 (dbState c)) ->
  assertCompactedSRsInIDOrder (rebuilt compaction outputSR (compacted (dbState c))) = Done tt ->
  exists c',
    finishCompaction c outputSR = Done c' /\
    watermark_after firstSource (l0LastCompacted (dbState c)) (l0LastCompacted (dbState c')).
Proof.
  intros Hreg Hsrc Hkind Horder.
  rewrite (finishCompaction_registered c outputSR compaction Hreg Hkind).
  rewrite Horder, Hsrc.
  cbn [length Nat.ltb Nat.leb AssertTrue mbind outcome_bind].
  eexists. split; [reflexivity |]. cbn [dbState l0LastCompacted].
  split.
  - intros id Hid. rewrite Hid. reflexivity.
  - intros Htyp. destruct (sstID firstSource) as [id |] eqn:Hid; [| reflexivity].
    apply sstID_typ in Hid. congruence.
Qed.

(** C6, at a destination equal to [MaxUint32]: the compaction is
    accepted by a new state with no file and no run, it is registered
    with one file as its first source, and the list that
    [finishCompaction] rebuilds is the output run alone, which is in
    decreasing order; yet the call stops at the order assertion, whose
    first comparison is with [MaxUint32] and strict, so that the
    watermark is never set. *)
Theorem finishCompaction_at_MaxUint32 :
  let firstSource := newSourceIDSST sample.ulid1 in
  let compaction := newCompaction [firstSource] MaxUint32 in
  let outputSR := mkSortedRun MaxUint32 [sample.sst1] in
  exists c,
    submitCompaction (newCompactorState sample.emptyDB) compaction = (c, None) /\
    compactions c !! sr_id outputSR = Some compaction /\
    sstID firstSource = Some sample.ulid1 /\
    rebuilt compaction outputSR (compacted (dbState c)) = [outputSR] /\
    strictly_decreasing_by_id [outputSR] /\
    finishCompaction c outputSR =
      Panicked "compacted sortedRuns not in decreasing order".
Proof.
  cbn zeta. eexists. split; [vm_compute; reflexivity |].
  split; [vm_compute; reflexivity |].
  split; [vm_compute; reflexivity |].
  split; [vm_compute; reflexivity |].
  split; [| vm_compute; reflexivity].
  split; [repeat constructor | apply NoDup_singleton].
Qed.

(** ** finishCompaction on an unknown id *)

(** C5: for an outputSortedRun whose id is not a key of compactions,
    finishCompaction returns without error and leaves both dbState and
    compactions unchanged. *)
Theorem finishCompaction_unknown c outputSR :
  compactions c !! sr_id outputSR = None ->
  finishCompaction c outputSR = Done c.
Proof. intros Hno. unfold finishCompaction. rewrite Hno. reflexivity. Qed.

Lemma finishCompaction_unknown_witness :
  let c := fst (submitCompaction (newCompactorState sample.db) sample.l0ToRun6) in
  compactions c !! 6 = Some sample.l0ToRun6 /\
  finishCompaction c (mkSortedRun 9 [sample.sst1]) = Done c.
Proof.
  cbn zeta. split; [vm_compute; reflexivity |].
  apply finishCompaction_unknown. vm_compute. reflexivity.
Defined.

(** ** submitCompaction *)

(** C3: submitCompaction returns the InvalidCompaction error if and only
    if compactions already holds an entry at the destination, or the
    compacted list contains a run whose id is the destination and no
    sorted-run-type source of the compaction carries that id; on success
    the compaction is inserted into compactions at its destination and
    dbState is unchanged.  The sources are source ids as the two
    constructors make them. *)
Theorem submitCompaction_spec c compaction :
  Forall wfSourceID (sources compaction) ->
  (snd (submitCompaction c compaction) = Some common.ErrInvalidCompaction <->
   is_Some (compactions c !! destination compaction) \/
   ((exists sr, sr ∈ compacted (dbState c) /\ sr_id sr = destination compaction) /\
    ~ exists s, s ∈ sources compaction /\ sortedRunID s = Some (destination compaction))) /\
  (snd (submitCompaction c compaction) = None ->
   fst (submitCompaction c compaction) =
     {| dbState := dbState c;
        compactions := <[destination compaction := compaction]> (compactions c) |}).
Proof.
  intros Hwf. unfold submitCompaction.
  pose proof (checkDestination_spec (compacted (dbState c)) compaction) as Hcheck.
  pose proof (oneOfTheSourceSRMatches_spec (sources compaction)
                (destination compaction) Hwf) as Hone.
  fold (oneOfTheSourceSRMatchesDestination compaction) in Hone.
  destruct (compactions c !! destination compaction) as [old |] eqn:Hold; cbn [fst snd].
  - split; [| discriminate]. split; [| reflexivity]. intros _. left. eauto.
  - destruct (checkDestination _ _) as [err |] eqn:Herr; cbn [fst snd].
    + destruct err. split; [| discriminate]. split; [| reflexivity].
      intros _. right. destruct (proj1 Hcheck eq_refl) as [Hex Hno].
      split; [assumption |]. rewrite <- Hone, Hno. discriminate.
    + split; [| reflexivity]. split; [discriminate |].
      intros [[x Hx] | [Hex Hno]]; [discriminate |].
      exfalso.
      assert (@None common.error = Some common.ErrInvalidCompaction) as Habs;
        [| discriminate].
      apply Hcheck. split; [assumption |].
      rewrite <- Hone in Hno. destruct (oneOfTheSourceSRMatchesDestination _); congruence.
Qed.

Lemma sample_sources_wf :
  Forall wfSourceID (sources sample.runsTo3) /\
  Forall wfSourceID (sources sample.l0ToRun6).
Proof.
  destruct sample_ulid_wf as (H1 & H2 & _).
  assert (Hsr : forall id, 0 <= id <= 5 -> wfSourceID (newSourceIDSortedRun id)).
  { intros id Hid. left. exists id. split; [unfold is_uint32, MaxUint32; lia | reflexivity]. }
  assert (Hsst : forall id, ulid.wf id -> wfSourceID (newSourceIDSST id)).
  { intros id Hid. right. exists id. auto. }
  split; unfold sample.runsTo3, sample.l0ToRun6; cbn [sources newCompaction].
  - apply Forall_cons. split; [apply Hsr; lia |].
    apply Forall_cons. split; [apply Hsr; lia | constructor].
  - apply Forall_cons. split; [apply Hsst, H2 |].
    apply Forall_cons. split; [apply Hsst, H1 | constructor].
Qed.

Lemma submitCompaction_spec_witness :
  snd (submitCompaction (newCompactorState sample.db) sample.runsTo3) = None /\
  snd (submitCompaction (newCompactorState sample.db)
         (newCompaction (sources sample.l0ToRun6) 3)) = Some common.ErrInvalidCompaction /\
  (fst (submitCompaction (newCompactorState sample.db) sample.runsTo3) =
   {| dbState := sample.db;
      compactions := <[3 := sample.runsTo3]> ∅ |}).
Proof.
  split; [vm_compute; reflexivity |]. split; [vm_compute; reflexivity |].
  apply (submitCompaction_spec (newCompactorState sample.db) sample.runsTo3).
  - apply sample_sources_wf.
  - vm_compute. reflexivity.
Defined.

(** ** refreshDBState *)

(** C4: refreshDBState replaces dbState with a clone whose l0 is the
    longest prefix of writerState.l0 with no entry whose id equals the
    watermark held before the call (all of writerState.l0 when no entry
    matches the watermark, as when there is none), and whose
    lastCompactedWalSSTID and nextWalSstID are those of writerState; the
    compacted list and the watermark are unchanged.  The level-0 entries
    of writerState are of the compacted kind. *)
Theorem refreshDBState_spec c writerState :
  l0_compacted_kind (l0 writerState) ->
  exists c',
    refreshDBState c writerState = Done c' /\
    longest_prefix_before (l0LastCompacted (dbState c)) (l0 writerState) (l0 (dbState c')) /\
    (Forall (fun sst => ~ matches_watermark (l0LastCompacted (dbState c)) sst)
       (l0 writerState) ->
     l0 (dbState c') = l0 writerState) /\
    lastCompactedWalSSTID (dbState c') = lastCompactedWalSSTID writerState /\
    nextWalSstID (dbState c') = nextWalSstID writerState /\
    compacted (dbState c') = compacted (dbState c) /\
    l0LastCompacted (dbState c') = l0LastCompacted (dbState c) /\
    compactions c' = compactions c.
Proof.
  intros Hkind. unfold refreshDBState.
  destruct (mergeL0s_spec (l0LastCompacted (dbState c)) (l0 writerState) [] Hkind)
    as (pre & rest & Hrun & Heq & Hno & Hrest).
  rewrite Hrun. cbn [mbind outcome_bind app].
  eexists. split; [reflexivity |].
  cbn [dbState compactions l0 compacted l0LastCompacted nextWalSstID
       lastCompactedWalSSTID clone].
  assert (Hlongest : longest_prefix_before (l0LastCompacted (dbState c))
                       (l0 writerState) pre)
    by (rewrite Heq; apply longest_prefix_before_intro; assumption).
  split; [exact Hlongest |].
  split; [| repeat split].
  intros Hall. destruct Hlongest as (Hpre & _ & Hmax).
  apply (anti_symm prefix); [assumption |].
  apply Hmax; [reflexivity | assumption].
Qed.

Lemma refreshDBState_spec_witness :
  let c := {| dbState :=
                {| l0 := []; l0LastCompacted := Some sample.ulid2;
                   compacted := [mkSortedRun 6 [sample.sst1]];
                   nextWalSstID := 4; lastCompactedWalSSTID := 3 |};
              compactions := ∅ |} in
  exists c',
    refreshDBState c sample.writerDB = Done c' /\
    l0 (dbState c') = [sample.sst3] /\
    longest_prefix_before (Some sample.ulid2) (l0 sample.writerDB) (l0 (dbState c')).
Proof.
  cbn zeta.
  match goal with
  | |- exists c', refreshDBState ?c _ = _ /\ _ =>
      destruct (refreshDBState_spec c sample.writerDB) as (c' & Hrun & Hlongest & _)
  end.
  - repeat constructor.
  - exists c'. split; [exact Hrun |]. split; [| exact Hlongest].
    vm_compute in Hrun. injection Hrun as <-. reflexivity.
Defined.

(** ** The two constructors of SourceID and its two accessors *)

(** C9: for a uint32 id, newSourceIDSortedRun(id).sortedRunID() is
    Some(id) and newSourceIDSortedRun(id).sstID() is None; for a ULID u,
    newSourceIDSST(u).sstID() is Some(u) and
    newSourceIDSST(u).sortedRunID() is None. *)
Theorem SourceID_round_trip (id : Z) (u : ulid.ULID) :
  is_uint32 id -> ulid.wf u ->
  sortedRunID (newSourceIDSortedRun id) = Some id /\
  sstID (newSourceIDSortedRun id) = None /\
  sstID (newSourceIDSST u) = Some u /\
  sortedRunID (newSourceIDSST u) = None.
Proof.
  intros Hid Hu.
  split; [apply sortedRunID_newSourceIDSortedRun, Hid |].
  split; [reflexivity |].
  split; [apply sstID_newSourceIDSST, Hu | reflexivity].
Qed.

Lemma SourceID_round_trip_witness :
  sortedRunID (newSourceIDSortedRun MaxUint32) = Some MaxUint32 /\
  sstID (newSourceIDSortedRun MaxUint32) = None /\
  sstID (newSourceIDSST sample.ulid1) = Some sample.ulid1 /\
  sortedRunID (newSourceIDSST sample.ulid1) = None.
Proof.
  apply SourceID_round_trip.
  - unfold is_uint32, MaxUint32. lia.
  - split; [reflexivity | repeat constructor; lia].
Defined.

(** ** A compaction without sources *)

Lemma checkDestination_None srs compaction :
  (forall sr, sr ∈ srs -> sr_id sr <> destination compaction) ->
  checkDestination srs compaction = None.
Proof.
  intros Hfree. destruct (checkDestination srs compaction) as [[] |] eqn:Hcheck;
    [| reflexivity].
  apply checkDestination_spec in Hcheck as [(sr & Hin & Heq) _].
  exfalso. exact (Hfree sr Hin Heq).
Qed.

(** C10: submitCompaction does not look at the sources, and
    finishCompaction asserts that there is one: a compaction with an
    empty sources list whose destination is the id of no sorted run is
    accepted by a new CompactorState, and finishCompaction for its
    destination then stops at the fatal assertion. *)
Theorem empty_compaction_reaches_assertion db dest files :
  l0_compacted_kind (l0 db) ->
  strictly_decreasing_by_id (compacted db) ->
  Forall (fun sr => sr_id sr < MaxUint32) (compacted db) ->
  dest < MaxUint32 ->
  (forall sr, sr ∈ compacted db -> sr_id sr <> dest) ->
  exists c,
    submitCompaction (newCompactorState db) (newCompaction [] dest) = (c, None) /\
    finishCompaction c (mkSortedRun dest files) =
      Panicked "compaction should not be empty".
Proof.
  intros Hkind Hsorted Hbelow Hdest Hfree.
  unfold submitCompaction, newCompactorState.
  cbn [compactions dbState destination newCompaction].
  rewrite lookup_empty.
  rewrite checkDestination_None by assumption.
  eexists. split; [reflexivity |].
  rewrite (finishCompaction_registered _ _ (newCompaction [] dest)).
  - cbn [dbState compacted].
    rewrite rebuilt_in_order by (try assumption; reflexivity).
    reflexivity.
  - cbn [compactions sr_id]. apply lookup_insert_eq.
  - assumption.
Qed.

Lemma empty_compaction_reaches_assertion_witness :
  exists c,
    submitCompaction (newCompactorState sample.db) sample.emptyJob = (c, None) /\
    finishCompaction c (mkSortedRun 7 [sample.sst1]) =
      Panicked "compaction should not be empty".
Proof.
  apply (empty_compaction_reaches_assertion sample.db 7 [sample.sst1]).
  - repeat constructor.
  - exact sample_db_in_order.
  - repeat constructor.
  - reflexivity.
  - intros sr Hin. cbn in Hin.
    rewrite !elem_of_cons, elem_of_nil in Hin.
    destruct Hin as [-> | [-> | []]]; discriminate.
Defined.

(** ** The order of keys *)

Lemma bytesCompare_refl a : bytesCompare a a = Eq.
Proof.
  induction a as [| x a IH]; cbn; [reflexivity |].
  rewrite Nat.compare_refl. exact IH.
Qed.

Lemma key_lt_irrefl a : ~ key_lt a a.
Proof. unfold key_lt. rewrite bytesCompare_refl. discriminate. Qed.

Lemma key_lt_trans a : forall b c, key_lt a b -> key_lt b c -> key_lt a c.
Proof.
  unfold key_lt.
  induction a as [| x a IH]; intros [| y b] [| z c]; cbn; try discriminate;
    try reflexivity.
  destruct (Nat.compare_spec (nat_of_ascii x) (nat_of_ascii y)) as [Hxy | Hxy | Hxy];
    destruct (Nat.compare_spec (nat_of_ascii y) (nat_of_ascii z)) as [Hyz | Hyz | Hyz];
    try discriminate; intros Hab Hbc.
  - rewrite Hxy, Hyz, Nat.compare_refl. eapply IH; eassumption.
  - rewrite Hxy. apply Nat.compare_lt_iff in Hyz. rewrite Hyz. reflexivity.
  - rewrite <- Hyz. apply Nat.compare_lt_iff in Hxy. rewrite Hxy. reflexivity.
  - assert (H : (nat_of_ascii x < nat_of_ascii z)%nat) by lia.
    apply Nat.compare_lt_iff in H. rewrite H. reflexivity.
Qed.

Lemma StronglySorted_key_lt_NoDup keys :
  StronglySorted key_lt keys -> NoDup keys.
Proof.
  induction 1 as [| k keys _ IH Hall]; constructor; [| assumption].
  intros Hin. rewrite Forall_forall in Hall.
  exact (key_lt_irrefl k (Hall k Hin)).
Qed.

Lemma ascending_ranges_tail f files :
  ascending_ranges (f :: files) -> ascending_ranges files.
Proof.
  intros Hasc i j g h a b Hlt Hg Hh. apply (Hasc (S i) (S j)); [lia | assumption ..].
Qed.

(** The pairs of the files of a run, one file after the other, are in
    strictly increasing order of key. *)
Lemma concat_sorted files :
  Forall sorted_file files -> ascending_ranges files ->
  StronglySorted key_lt (Key <$> concat files).
Proof.
  induction 1 as [| f files Hf _ IH]; intros Hasc; [constructor |].
  cbn [concat]. rewrite fmap_app. apply StronglySorted_app_2.
  - intros ka kb Ha Hb.
    apply list_elem_of_fmap in Ha as (a & -> & Ha).
    apply list_elem_of_fmap in Hb as (b & -> & Hb).
    apply list_elem_of_In, in_concat in Hb as (g & Hg & Hb).
    apply list_elem_of_In in Hg, Hb.
    apply list_elem_of_lookup in Hg as (j & Hg).
    apply (Hasc 0%nat (S j) f g); [lia | reflexivity | assumption ..].
  - exact Hf.
  - apply IH. eapply ascending_ranges_tail, Hasc.
Qed.

(** ** Scanning a sorted run *)

Section Scan.
Variable store : TableStore.
Variables fetchTasks blocksToFetch : Z.

Lemma nextEntry_some rest : forall files pending kv more,
  stored store rest files ->
  pending ++ concat files = kv :: more ->
  exists pending' rest' files',
    nextEntry store (SSTIter pending) rest =
      ((Some kv, None), (Some (SSTIter pending'), rest')) /\
    stored store rest' files' /\
    pending' ++ concat files' = more.
Proof.
  induction rest as [| sst rest IH]; intros files pending kv more Hstored Heq.
  - apply Forall2_nil_inv_l in Hstored as ->.
    cbn [concat] in Heq. rewrite app_nil_r in Heq. subst pending.
    exists more, [], []. cbn. rewrite app_nil_r. repeat split. constructor.
  - apply Forall2_cons_inv_l in Hstored as (f & files' & Hsst & Hstored & ->).
    destruct pending as [| kv' pending].
    + cbn [nextEntry]. unfold newSSTIterator. rewrite Hsst.
      apply (IH files' f kv more Hstored). exact Heq.
    + injection Heq as -> Heq.
      exists pending, (sst :: rest), (f :: files'). cbn [nextEntry].
      repeat split; [| assumption]. constructor; assumption.
Qed.

Lemma nextEntry_none rest : forall files pending,
  stored store rest files ->
  pending ++ concat files = [] ->
  nextEntry store (SSTIter pending) rest = ((None, None), (None, [])).
Proof.
  induction rest as [| sst rest IH]; intros files pending Hstored Heq.
  - apply app_eq_nil in Heq as [-> _]. reflexivity.
  - apply Forall2_cons_inv_l in Hstored as (f & files' & Hsst & Hstored & ->).
    apply app_eq_nil in Heq as [-> Heq].
    cbn [nextEntry]. unfold newSSTIterator. rewrite Hsst.
    apply (IH files' f Hstored). exact Heq.
Qed.

(** Once the iterator has dropped its current file it stays there. *)
Lemma nexts_exhausted n rest :
  nexts n (iterAt store fetchTasks blocksToFetch None rest) = repeat (None, None) n.
Proof.
  induction n as [| n IH]; [reflexivity |].
  cbn [nexts Next currentKVIter iterAt]. cbn [repeat]. f_equal. exact IH.
Qed.

(** The calls of [Next] give the pending pairs of the current file, then
    the pairs of the files still to open, then "none" for ever. *)
Lemma nexts_scan more : forall pending rest files n,
  stored store rest files ->
  pending ++ concat files = more ->
  nexts (length more + n)
    (iterAt store fetchTasks blocksToFetch (Some (SSTIter pending)) rest) =
  ((fun kv => (Some kv, None)) <$> more) ++ repeat (None, None) n.
Proof.
  induction more as [| kv more IH]; intros pending rest files n Hstored Heq.
  - destruct n as [| n]; [reflexivity |].
    cbn [length Nat.add nexts Next currentKVIter sstListIter tableStore iterAt].
    rewrite (nextEntry_none rest files pending Hstored Heq).
    cbn [fmap list_fmap app repeat]. f_equal. apply nexts_exhausted.
  - cbn [length Nat.add nexts Next currentKVIter sstListIter tableStore iterAt].
    destruct (nextEntry_some rest files pending kv more Hstored Heq)
      as (pending' & rest' & files' & Hnext & Hstored' & Heq').
    rewrite Hnext. cbn [fmap list_fmap app]. f_equal.
    apply (IH pending' rest' files' n Hstored' Heq').
Qed.

Lemma nexts_newSortedRunIterator sr files n :
  stored store (sstList sr) files ->
  nexts (length (concat files) + n)
    (newSortedRunIterator sr store fetchTasks blocksToFetch) =
  ((fun kv => (Some kv, None)) <$> concat files) ++ repeat (None, None) n.
Proof.
  intros Hstored. unfold newSortedRunIterator.
  destruct (sstList sr) as [| sst rest].
  - apply Forall2_nil_inv_l in Hstored as ->. cbn [concat length Nat.add fmap list_fmap app].
    apply (nexts_exhausted n []).
  - apply Forall2_cons_inv_l in Hstored as (f & files' & Hsst & Hstored & ->).
    unfold newSSTIterator. rewrite Hsst.
    apply (nexts_scan (concat (f :: files')) f rest files' n Hstored). reflexivity.
Qed.

Lemma nexts_add a : forall b iter,
  nexts (a + b) iter = nexts a iter ++ nexts b (after a iter).
Proof.
  induction a as [| a IH]; intros b iter; [reflexivity |].
  cbn [Nat.add nexts after]. destruct (Next iter) as [res iter'].
  cbn [snd app]. f_equal. apply IH.
Qed.

End Scan.

(** [TestOneSstSRIter]: one file with three pairs; the scan yields them
    in order and then "none", call after call. *)
Example TestOneSstSRIter :
  nexts 5 (newSortedRunIterator sample.oneFileRun sample.store 1 1) =
  [(Some (mkKV "key1" "value1"), None); (Some (mkKV "key2" "value2"), None);
   (Some (mkKV "key3" "value3"), None); (None, None); (None, None)].
Proof. reflexivity. Qed.

(** A file that cannot be read: [Next] reports the error. *)
Example Next_unreadable_file :
  fst (Next (newSortedRunIterator (mkSortedRun 0 [mkSSTableHandle (newSSTableIDWal 1) 0])
               sample.store 1 1)) = (None, Some ErrReadSST).
Proof. reflexivity. Qed.

(** C7: for a sorted run whose files are each sorted ascending and have
    pairwise disjoint, ascending key ranges, a full scan yields the pairs
    of file 0, then those of file 1, and so on, then "none"; the keys so
    produced are strictly increasing and none occurs twice. *)
Theorem full_scan_is_concatenation store sr files fetchTasks blocksToFetch :
  stored store (sstList sr) files ->
  Forall sorted_file files ->
  ascending_ranges files ->
  nexts (length (concat files) + 1)
    (newSortedRunIterator sr store fetchTasks blocksToFetch) =
  ((fun kv => (Some kv, None)) <$> concat files) ++ [(None, None)] /\
  StronglySorted key_lt (Key <$> concat files) /\
  NoDup (Key <$> concat files).
Proof.
  intros Hstored Hsorted Hasc.
  split; [apply nexts_newSortedRunIterator, Hstored |].
  pose proof (concat_sorted files Hsorted Hasc) as Hs.
  split; [exact Hs | apply StronglySorted_key_lt_NoDup, Hs].
Qed.

Lemma sample_stored : stored sample.store (sstList sample.run) [sample.file1; sample.file2].
Proof. repeat constructor. Qed.

Lemma full_scan_is_concatenation_witness :
  nexts 4 (newSortedRunIterator sample.run sample.store 1 1) =
  [(Some (mkKV "key1" "value1"), None); (Some (mkKV "key2" "value2"), None);
   (Some (mkKV "key3" "value3"), None); (None, None)] /\
  StronglySorted key_lt ["key1"; "key2"; "key3"]%string /\
  NoDup ["key1"; "key2"; "key3"]%string.
Proof.
  apply (full_scan_is_concatenation sample.store sample.run [sample.file1; sample.file2] 1 1).
  - exact sample_stored.
  - repeat constructor.
  - intros [| [| i]] [| [| j]] f g a b Hlt Hf Hg Ha Hb; cbn in Hf, Hg;
      try lia; try discriminate.
    injection Hf as <-. injection Hg as <-.
    apply list_elem_of_In in Ha, Hb. cbn in Ha, Hb.
    destruct Ha as [<- | [<- | []]]; destruct Hb as [<- | []]; reflexivity.
Defined.

(** C8: once a SortedRunIterator has yielded all the pairs of its run,
    every further call of [Next], however many there are, returns "none"
    and no error. *)
Theorem exhausted_iterator_stays_exhausted store sr files fetchTasks blocksToFetch m n :
  stored store (sstList sr) files ->
  nexts n (after (length (concat files) + m)
             (newSortedRunIterator sr store fetchTasks blocksToFetch)) =
  repeat (None, None) n.
Proof.
  intros Hstored.
  pose proof (nexts_newSortedRunIterator store fetchTasks blocksToFetch sr files
                (m + n) Hstored) as Hall.
  rewrite Nat.add_assoc, nexts_add in Hall.
  rewrite (nexts_newSortedRunIterator store fetchTasks blocksToFetch sr files m Hstored)
    in Hall.
  rewrite repeat_app, app_assoc in Hall.
  apply app_inv_head in Hall. exact Hall.
Qed.

Lemma exhausted_iterator_stays_exhausted_witness :
  nexts 5 (after 3 (newSortedRunIterator sample.run sample.store 1 1)) =
  repeat (None, None) 5.
Proof.
  apply (exhausted_iterator_stays_exhausted sample.store sample.run
           [sample.file1; sample.file2] 1 1 0 5).
  exact sample_stored.
Defined.

(* ================================================================== *)
(** * Further properties of the compactor state                       *)
(* ================================================================== *)

(** ** What a completed call tells about its state *)

Lemma compactedID_kind sst id :
  compactedID (sst_id sst) = Some id -> sst_typ (sst_id sst) = Compacted.
Proof. destruct (sst_id sst); [discriminate | reflexivity]. Qed.

Lemma not_matches_WAL watermark sst :
  sst_typ (sst_id sst) = WAL -> ~ matches_watermark watermark sst.
Proof.
  intros Hwal [[w ->] Hid]. apply compactedID_kind in Hid. congruence.
Qed.

(** The loop of [refreshDBState], when it ends: what it kept was
    checked, none of it matches the watermark, and it stopped at the end
    of the list or in front of a match. *)
Lemma mergeL0s_Done_inv watermark writerL0 : forall mergedL0s merged,
  mergeL0s watermark writerL0 mergedL0s = Done merged ->
  exists kept rest,
    merged = mergedL0s ++ kept /\
    writerL0 = kept ++ rest /\
    l0_compacted_kind kept /\
    Forall (fun sst => ~ matches_watermark watermark sst) kept /\
    match rest with
    | [] => True
    | sst :: _ => matches_watermark watermark sst
    end.
Proof.
  induction writerL0 as [| sst writerL0 IH]; intros mergedL0s merged Hrun.
  - injection Hrun as <-. exists [], []. rewrite app_nil_r.
    repeat split; constructor.
  - cbn [mergeL0s] in Hrun.
    destruct (sst_id sst) as [wal | id] eqn:Hid; [discriminate Hrun |].
    cbn [sst_typ] in Hrun.
    rewrite (bool_decide_eq_true_2 (Compacted = Compacted) eq_refl) in Hrun.
    cbn [AssertTrue mbind outcome_bind compactedID mo.Get] in Hrun.
    assert (Hkind : sst_typ (sst_id sst) = Compacted) by (rewrite Hid; reflexivity).
    destruct watermark as [w |]; cbn [mo.IsPresent mo.Get andb] in Hrun.
    + destruct (decide (id = w)) as [-> | Hne].
      * rewrite bool_decide_eq_true_2 in Hrun by reflexivity.
        injection Hrun as <-. exists [], (sst :: writerL0). rewrite app_nil_r.
        repeat split; try constructor; [eexists; reflexivity |].
        rewrite Hid. reflexivity.
      * rewrite bool_decide_eq_false_2 in Hrun by assumption.
        destruct (IH _ _ Hrun) as (kept & rest & -> & -> & Hk & Hno & Hrest).
        exists (sst :: kept), rest. rewrite <- app_assoc.
        repeat split; try assumption; [constructor; assumption |].
        constructor; [| assumption].
        intros [_ Hm]. rewrite Hid in Hm. cbn in Hm. congruence.
    + destruct (IH _ _ Hrun) as (kept & rest & -> & -> & Hk & Hno & Hrest).
      exists (sst :: kept), rest. rewrite <- app_assoc.
      repeat split; try assumption; [constructor; assumption |].
      constructor; [| assumption]. intros [[w Hw] _]. discriminate.
Qed.

Lemma refreshDBState_Done_inv c writerState c' :
  refreshDBState c writerState = Done c' ->
  exists merged,
    mergeL0s (l0LastCompacted (dbState c)) (l0 writerState) [] = Done merged /\
    c' = {| dbState :=
              {| l0 := merged;
                 l0LastCompacted := l0LastCompacted (dbState c);
                 compacted := compacted (dbState c);
                 nextWalSstID := nextWalSstID writerState;
                 lastCompactedWalSSTID := lastCompactedWalSSTID writerState |};
            compactions := compactions c |}.
Proof.
  unfold refreshDBState.
  destruct (mergeL0s _ _ _) as [merged | msg]; cbn [mbind outcome_bind];
    [| discriminate].
  intros [= <-]. exists merged. split; reflexivity.
Qed.

(** The loop of [finishCompaction] over the level-0 files ends only on
    files of the compacted kind. *)
Lemma filterL0_Done_kind (compactionL0s : gset ulid.ULID) (ssts : list SSTableHandle) :
  forall newL0 result,
  filterL0 compactionL0s ssts newL0 = Done result -> l0_compacted_kind ssts.
Proof.
  induction ssts as [| sst ssts IH]; intros newL0 result Hrun; [constructor |].
  cbn [filterL0] in Hrun.
  destruct (sst_id sst) as [wal | id] eqn:Hid; [discriminate Hrun |].
  cbn [compactedID mo.IsPresent mo.Get AssertTrue mbind outcome_bind] in Hrun.
  constructor; [rewrite Hid; reflexivity |].
  destruct (bool_decide _); eapply IH; exact Hrun.
Qed.

(** [finishCompaction], when it returns: either there was no entry and
    nothing changed, or the entry had a source, the assertions held and
    the state is the rebuilt one. *)
Lemma finishCompaction_Done_inv c outputSR c' :
  finishCompaction c outputSR = Done c' ->
  (compactions c !! sr_id outputSR = None /\ c' = c) \/
  (exists compaction firstSource rest,
     compactions c !! sr_id outputSR = Some compaction /\
     sources compaction = firstSource :: rest /\
     l0_compacted_kind (l0 (dbState c)) /\
     assertCompactedSRsInIDOrder
       (rebuilt compaction outputSR (compacted (dbState c))) = Done tt /\
     c' = {| dbState :=
               {| l0 := filter (fun sst => ~ consumedFile compaction sst) (l0 (dbState c));
                  l0LastCompacted :=
                    if mo.IsPresent (sstID firstSource)
                    then Some (mo.Get ulid.zero (sstID firstSource))
                    else l0LastCompacted (dbState c);
                  compacted := rebuilt compaction outputSR (compacted (dbState c));
                  nextWalSstID := nextWalSstID (dbState c);
                  lastCompactedWalSSTID := lastCompactedWalSSTID (dbState c) |};
             compactions := delete (sr_id outputSR) (compactions c) |}).
Proof.
  intros Hrun.
  destruct (compactions c !! sr_id outputSR) as [compaction |] eqn:Hreg.
  - right.
    assert (Hkind : l0_compacted_kind (l0 (dbState c))).
    { unfold finishCompaction in Hrun. rewrite Hreg in Hrun.
      destruct (collectSources _ _ _) as [L R].
      destruct (filterL0 L _ _) as [newL0 | msg] eqn:Hl0;
        cbn [mbind outcome_bind] in Hrun; [| discriminate].
      eapply filterL0_Done_kind. exact Hl0. }
    rewrite (finishCompaction_registered c outputSR compaction Hreg Hkind) in Hrun.
    destruct (assertCompactedSRsInIDOrder _) as [[] | msg] eqn:Horder;
      cbn [mbind outcome_bind] in Hrun; [| discriminate].
    destruct (sources compaction) as [| firstSource rest] eqn:Hsrc;
      cbn [length Nat.ltb Nat.leb AssertTrue mbind outcome_bind] in Hrun;
      [discriminate |].
    injection Hrun as <-.
    exists compaction, firstSource, rest. repeat split; assumption.
  - left. unfold finishCompaction in Hrun. rewrite Hreg in Hrun.
    injection Hrun as <-. split; reflexivity.
Qed.

Lemma submitCompaction_cases c compaction :
  (submitCompaction c compaction = (c, Some common.ErrInvalidCompaction)) \/
  (compactions c !! destination compaction = None /\
   submitCompaction c compaction =
     ({| dbState := dbState c;
         compactions := <[destination compaction := compaction]> (compactions c) |},
      None)).
Proof.
  unfold submitCompaction.
  destruct (compactions c !! destination compaction); [left; reflexivity |].
  destruct (checkDestination _ _) as [[] |]; [left | right]; auto.
Qed.

(** ** One compaction for a destination *)

(** X1: every state that a run of calls reaches from a state whose
    entries are filed under their destinations has its entries filed
    under their destinations. *)
Theorem compactions_keyed_by_destination c calls c' :
  keyed_by_destination (compactions c) ->
  doCalls c calls = Done c' ->
  keyed_by_destination (compactions c').
Proof.
  revert c. induction calls as [| call calls IH]; intros c Hkeyed Hrun.
  - injection Hrun as <-. exact Hkeyed.
  - cbn [doCalls] in Hrun.
    destruct (doCall c call) as [c1 | msg] eqn:Hcall; cbn [mbind outcome_bind] in Hrun;
      [| discriminate].
    apply (IH c1); [| exact Hrun].
    destruct call as [compaction | writerState | outputSR]; cbn [doCall] in Hcall.
    + injection Hcall as <-.
      destruct (submitCompaction_cases c compaction) as [-> | [_ ->]]; cbn [fst compactions].
      * exact Hkeyed.
      * apply map_Forall_insert_2; [reflexivity | exact Hkeyed].
    + apply refreshDBState_Done_inv in Hcall as (merged & _ & ->). exact Hkeyed.
    + apply finishCompaction_Done_inv in Hcall
        as [[_ ->] | (compaction & f & r & _ & _ & _ & _ & ->)];
        [exact Hkeyed |].
      cbn [compactions]. apply map_Forall_delete, Hkeyed.
Qed.

Lemma compactions_keyed_by_destination_witness :
  exists c',
    doCalls (newCompactorState sample.db)
      [CallSubmit sample.l0ToRun6; CallSubmit sample.l0ToRun6;
       CallRefresh sample.writerDB; CallSubmit sample.runsTo3;
       CallFinish (mkSortedRun 6 [sample.sst1])] = Done c' /\
    compactions c' !! 3 = Some sample.runsTo3 /\
    keyed_by_destination (compactions c').
Proof.
  eexists. split; [vm_compute; reflexivity |].
  split; [vm_compute; reflexivity |].
  eapply (compactions_keyed_by_destination (newCompactorState sample.db)
            [CallSubmit sample.l0ToRun6; CallSubmit sample.l0ToRun6;
             CallRefresh sample.writerDB; CallSubmit sample.runsTo3;
             CallFinish (mkSortedRun 6 [sample.sst1])]).
  - apply map_Forall_empty.
  - vm_compute. reflexivity.
Defined.

(** X2: once a compaction is accepted, every other compaction for the
    same destination is rejected, whatever its sources, and the state is
    left as it was. *)
Theorem second_submit_rejected c compaction c' other :
  submitCompaction c compaction = (c', None) ->
  destination other = destination compaction ->
  submitCompaction c' other = (c', Some common.ErrInvalidCompaction).
Proof.
  intros Hfirst Hdest.
  destruct (submitCompaction_cases c compaction) as [Herr | [_ Hok]];
    [rewrite Herr in Hfirst; discriminate |].
  rewrite Hok in Hfirst. injection Hfirst as <-.
  unfold submitCompaction. cbn [compactions]. rewrite Hdest, lookup_insert_eq.
  reflexivity.
Qed.

Lemma second_submit_rejected_witness :
  exists c',
    submitCompaction (newCompactorState sample.db) sample.l0ToRun6 = (c', None) /\
    submitCompaction c' (newCompaction [] 6) = (c', Some common.ErrInvalidCompaction).
Proof.
  eexists. split; [vm_compute; reflexivity |].
  eapply (second_submit_rejected (newCompactorState sample.db) sample.l0ToRun6).
  - vm_compute. reflexivity.
  - reflexivity.
Defined.

(** X3: a compaction that is accepted and then finished leaves
    [compactions] as it was before it was submitted; the entry that was
    finished is the one that was submitted. *)
Theorem submit_then_finish_restores_compactions c compaction c1 outputSR c2 :
  submitCompaction c compaction = (c1, None) ->
  sr_id outputSR = destination compaction ->
  finishCompaction c1 outputSR = Done c2 ->
  compactions c1 !! sr_id outputSR = Some compaction /\
  compactions c2 = compactions c.
Proof.
  intros Hsubmit Hid Hfinish.
  destruct (submitCompaction_cases c compaction) as [Herr | [Hfree Hok]];
    [rewrite Herr in Hsubmit; discriminate |].
  rewrite Hok in Hsubmit. injection Hsubmit as <-.
  cbn [compactions] in *. rewrite Hid, lookup_insert_eq. split; [reflexivity |].
  apply finishCompaction_Done_inv in Hfinish
    as [[Hnone _] | (compaction' & f & r & _ & _ & _ & _ & ->)].
  - cbn [compactions] in Hnone. rewrite Hid, lookup_insert_eq in Hnone. discriminate.
  - cbn [compactions]. rewrite Hid. apply delete_insert_id. exact Hfree.
Qed.

Lemma submit_then_finish_restores_compactions_witness :
  exists c1 c2,
    submitCompaction (newCompactorState sample.db) sample.l0ToRun6 = (c1, None) /\
    finishCompaction c1 (mkSortedRun 6 [sample.sst1]) = Done c2 /\
    compactions c2 = ∅.
Proof.
  eexists. eexists. split; [vm_compute; reflexivity |].
  split; [vm_compute; reflexivity |].
  eapply (submit_then_finish_restores_compactions (newCompactorState sample.db)
            sample.l0ToRun6
            (fst (submitCompaction (newCompactorState sample.db) sample.l0ToRun6))
            (mkSortedRun 6 [sample.sst1])).
  - vm_compute. reflexivity.
  - reflexivity.
  - vm_compute. reflexivity.
Defined.

(** X4: a finished run that is reported once more changes nothing:
    after a call of finishCompaction that returned, the same call
    returns with the state as it is. *)
Theorem finishCompaction_twice c outputSR c' :
  finishCompaction c outputSR = Done c' ->
  finishCompaction c' outputSR = Done c'.
Proof.
  intros Hfinish.
  apply finishCompaction_Done_inv in Hfinish
    as [[Hnone ->] | (compaction & f & r & _ & _ & _ & _ & ->)].
  - unfold finishCompaction. rewrite Hnone. reflexivity.
  - unfold finishCompaction. cbn [compactions]. rewrite lookup_delete_eq. reflexivity.
Qed.

Lemma finishCompaction_twice_witness :
  exists c1 c2,
    submitCompaction (newCompactorState sample.db) sample.runsTo3 = (c1, None) /\
    finishCompaction c1 (mkSortedRun 3 [sample.sst2]) = Done c2 /\
    c2 <> c1 /\
    finishCompaction c2 (mkSortedRun 3 [sample.sst2]) = Done c2.
Proof.
  eexists. eexists. split; [vm_compute; reflexivity |].
  split; [vm_compute; reflexivity |].
  split; [vm_compute; discriminate |].
  eapply (finishCompaction_twice
            (fst (submitCompaction (newCompactorState sample.db) sample.runsTo3))
            (mkSortedRun 3 [sample.sst2])).
  vm_compute. reflexivity.
Defined.

(** X5: a refresh with the writer state it has just absorbed changes
    nothing. *)
Theorem refreshDBState_twice c writerState c' :
  refreshDBState c writerState = Done c' ->
  refreshDBState c' writerState = Done c'.
Proof.
  intros Hrefresh.
  apply refreshDBState_Done_inv in Hrefresh as (merged & Hmerge & ->).
  unfold refreshDBState.
  cbn [dbState l0LastCompacted compacted compactions clone].
  rewrite Hmerge. reflexivity.
Qed.

Lemma refreshDBState_twice_witness :
  exists c',
    refreshDBState (newCompactorState sample.db) sample.writerDB = Done c' /\
    c' <> newCompactorState sample.db /\
    refreshDBState c' sample.writerDB = Done c'.
Proof.
  eexists. split; [vm_compute; reflexivity |].
  split; [vm_compute; discriminate |].
  eapply (refreshDBState_twice (newCompactorState sample.db)).
  vm_compute. reflexivity.
Defined.

(** ** When the mutators stop at an assertion *)

(** X6: for a registered compaction, finishCompaction returns if and
    only if every level-0 file of the state is of the compacted kind, the
    rebuilt list of runs is strictly decreasing by id with every id below
    [MaxUint32], and the compaction has a source. *)
Theorem finishCompaction_returns_iff c outputSR compaction :
  compactions c !! sr_id outputSR = Some compaction ->
  (exists c', finishCompaction c outputSR = Done c') <->
  l0_compacted_kind (l0 (dbState c)) /\
  strictly_decreasing_by_id (rebuilt compaction outputSR (compacted (dbState c))) /\
  Forall (fun sr => sr_id sr < MaxUint32)
    (rebuilt compaction outputSR (compacted (dbState c))) /\
  sources compaction <> [].
Proof.
  intros Hreg. split.
  - intros [c' Hrun].
    apply finishCompaction_Done_inv in Hrun
      as [[Hnone _] | (compaction' & f & r & Hreg' & Hsrc & Hkind & Horder & _)];
      [congruence |].
    assert (compaction' = compaction) as -> by congruence.
    apply assertCompactedSRsInIDOrder_Done in Horder as [Hsorted Hbelow].
    split; [assumption |]. split; [assumption |]. split; [assumption |].
    rewrite Hsrc. discriminate.
  - intros (Hkind & Hsorted & Hbelow & Hsrc).
    rewrite (finishCompaction_registered c outputSR compaction Hreg Hkind).
    rewrite (proj2 (assertCompactedSRsInIDOrder_Done _) (conj Hsorted Hbelow)).
    destruct (sources compaction) as [| firstSource rest]; [contradiction |].
    cbn [length Nat.ltb Nat.leb AssertTrue mbind outcome_bind].
    eexists. reflexivity.
Qed.

Lemma finishCompaction_returns_iff_witness :
  let c := fst (submitCompaction (newCompactorState sample.db) sample.l0ToRun6) in
  let stuck := fst (submitCompaction (newCompactorState sample.db) sample.emptyJob) in
  (exists c', finishCompaction c (mkSortedRun 6 [sample.sst1]) = Done c') /\
  ~ (exists c', finishCompaction stuck (mkSortedRun 7 [sample.sst1]) = Done c').
Proof.
  cbn zeta. split.
  - apply (finishCompaction_returns_iff
             (fst (submitCompaction (newCompactorState sample.db) sample.l0ToRun6))
             (mkSortedRun 6 [sample.sst1]) sample.l0ToRun6).
    + vm_compute. reflexivity.
    + split; [repeat constructor |].
      split; [apply assertCompactedSRsInIDOrder_Done; vm_compute; reflexivity |].
      split; [apply assertCompactedSRsInIDOrder_Done; vm_compute; reflexivity |].
      discriminate.
  - intros Hreturns.
    apply (finishCompaction_returns_iff
             (fst (submitCompaction (newCompactorState sample.db) sample.emptyJob))
             (mkSortedRun 7 [sample.sst1]) sample.emptyJob) in Hreturns.
    + destruct Hreturns as (_ & _ & _ & Hsrc). apply Hsrc. reflexivity.
    + vm_compute. reflexivity.
Defined.

Lemma mergeL0s_Panicked watermark writerL0 : forall mergedL0s msg,
  mergeL0s watermark writerL0 mergedL0s = Panicked msg ->
  msg = "unexpected SSTableID type"%string /\
  exists before sst rest,
    writerL0 = before ++ sst :: rest /\
    Forall (fun sst => ~ matches_watermark watermark sst) before /\
    sst_typ (sst_id sst) = WAL.
Proof.
  induction writerL0 as [| sst writerL0 IH]; intros mergedL0s msg Hrun;
    [discriminate |].
  cbn [mergeL0s] in Hrun.
  destruct (sst_id sst) as [wal | id] eqn:Hid.
  - cbn in Hrun. injection Hrun as <-. split; [reflexivity |].
    exists [], sst, writerL0. repeat split; [constructor | rewrite Hid; reflexivity].
  - cbn [sst_typ] in Hrun.
    rewrite (bool_decide_eq_true_2 (Compacted = Compacted) eq_refl) in Hrun.
    cbn [AssertTrue mbind outcome_bind compactedID mo.Get] in Hrun.
    destruct (mo.IsPresent watermark && bool_decide (id = mo.Get ulid.zero watermark))
      eqn:Hstop; [discriminate |].
    destruct (IH _ _ Hrun) as (-> & before & wal & rest & -> & Hno & Hwal).
    split; [reflexivity |].
    exists (sst :: before), wal, rest. repeat split; [| assumption].
    constructor; [| assumption].
    intros [[w ->] Hm]. rewrite Hid in Hm. cbn in Hm. injection Hm as ->.
    cbn in Hstop. rewrite bool_decide_eq_true_2 in Hstop by reflexivity. discriminate.
Qed.

Lemma mergeL0s_stops_at_WAL watermark before : forall sst rest mergedL0s,
  Forall (fun sst => ~ matches_watermark watermark sst) before ->
  sst_typ (sst_id sst) = WAL ->
  mergeL0s watermark (before ++ sst :: rest) mergedL0s =
  Panicked "unexpected SSTableID type".
Proof.
  induction before as [| x before IH]; intros sst rest mergedL0s Hno Hwal.
  - cbn [app mergeL0s]. rewrite Hwal. reflexivity.
  - apply Forall_cons in Hno as [Hx Hno]. cbn [app mergeL0s].
    destruct (sst_id x) as [wal | id] eqn:Hid; [reflexivity |].
    cbn [sst_typ].
    rewrite (bool_decide_eq_true_2 (Compacted = Compacted) eq_refl).
    cbn [AssertTrue mbind outcome_bind compactedID mo.Get].
    destruct watermark as [w |]; cbn [mo.IsPresent mo.Get andb].
    + rewrite bool_decide_eq_false_2.
      * apply IH; assumption.
      * intros ->. apply Hx. split; [eexists; reflexivity |].
        rewrite Hid. reflexivity.
    + apply IH; assumption.
Qed.

(** X7: refreshDBState stops at its assertion if and only if the
    writer's level-0 list has an entry of the write-ahead-log kind with
    no entry matching the watermark in front of it; an entry behind the
    first match is never looked at. *)
Theorem refreshDBState_panics_iff c writerState :
  (exists msg, refreshDBState c writerState = Panicked msg) <->
  exists before sst rest,
    l0 writerState = before ++ sst :: rest /\
    Forall (fun sst => ~ matches_watermark (l0LastCompacted (dbState c)) sst) before /\
    sst_typ (sst_id sst) = WAL.
Proof.
  unfold refreshDBState. split.
  - intros [msg Hrun].
    destruct (mergeL0s _ _ _) as [merged | msg'] eqn:Hmerge;
      cbn [mbind outcome_bind] in Hrun; [discriminate |].
    apply mergeL0s_Panicked in Hmerge as [_ Hex]. exact Hex.
  - intros (before & sst & rest & -> & Hno & Hwal).
    rewrite (mergeL0s_stops_at_WAL _ before sst rest [] Hno Hwal).
    eexists. reflexivity.
Qed.

(** ** What the mutators keep *)

(** X8: whatever the calls are, if the level-0 files of a state are of
    the compacted kind then so are those of every state that a run of
    calls reaches from it. *)
Theorem l0_stays_compacted_kind c calls c' :
  l0_compacted_kind (l0 (dbState c)) ->
  doCalls c calls = Done c' ->
  l0_compacted_kind (l0 (dbState c')).
Proof.
  revert c. induction calls as [| call calls IH]; intros c Hkind Hrun.
  - injection Hrun as <-. exact Hkind.
  - cbn [doCalls] in Hrun.
    destruct (doCall c call) as [c1 | msg] eqn:Hcall; cbn [mbind outcome_bind] in Hrun;
      [| discriminate].
    apply (IH c1); [| exact Hrun].
    destruct call as [compaction | writerState | outputSR]; cbn [doCall] in Hcall.
    + injection Hcall as <-.
      destruct (submitCompaction_cases c compaction) as [-> | [_ ->]]; exact Hkind.
    + apply refreshDBState_Done_inv in Hcall as (merged & Hmerge & ->).
      apply mergeL0s_Done_inv in Hmerge as (kept & rest & -> & _ & Hkept & _).
      exact Hkept.
    + apply finishCompaction_Done_inv in Hcall
        as [[_ ->] | (compaction & f & r & _ & _ & _ & _ & ->)];
        [exact Hkind |].
      cbn [dbState l0]. unfold l0_compacted_kind in *.
      rewrite Forall_forall in *. intros sst Hin.
      apply list_elem_of_filter in Hin as [_ Hin]. auto.
Qed.

Lemma l0_stays_compacted_kind_witness :
  exists c',
    doCalls (newCompactorState sample.db)
      [CallSubmit sample.l0ToRun6; CallRefresh sample.writerDB;
       CallFinish (mkSortedRun 6 [sample.sst1])] = Done c' /\
    l0 (dbState c') = [sample.sst3] /\
    l0_compacted_kind (l0 (dbState c')).
Proof.
  eexists. split; [vm_compute; reflexivity |].
  split; [vm_compute; reflexivity |].
  eapply (l0_stays_compacted_kind (newCompactorState sample.db)
            [CallSubmit sample.l0ToRun6; CallRefresh sample.writerDB;
             CallFinish (mkSortedRun 6 [sample.sst1])]).
  - repeat constructor.
  - vm_compute. reflexivity.
Defined.

Lemma safe_call_step c call :
  safe_state c -> safe_call call ->
  exists c', doCall c call = Done c' /\ safe_state c'.
Proof.
  intros (Hkind & Hsorted & Hbelow & Hentries) Hcall.
  destruct call as [compaction | writerState | outputSR]; cbn [doCall safe_call] in *.
  - eexists. split; [reflexivity |].
    destruct (submitCompaction_cases c compaction) as [-> | [_ ->]]; cbn [fst].
    + split; [| split; [| split]]; assumption.
    + split; [| split; [| split]]; cbn [dbState compactions]; try assumption.
      apply map_Forall_insert_2; [| exact Hentries].
      destruct Hcall. auto.
  - unfold refreshDBState.
    destruct (mergeL0s_spec (l0LastCompacted (dbState c)) (l0 writerState) [] Hcall)
      as (kept & rest & Hrun & Heq & _ & _).
    rewrite Hrun. cbn [mbind outcome_bind app]. eexists. split; [reflexivity |].
    split; [| split; [| split]];
      cbn [dbState compactions l0 compacted clone]; try assumption.
    unfold l0_compacted_kind in *. rewrite Heq in Hcall.
    apply Forall_app in Hcall. tauto.
  - destruct (compactions c !! sr_id outputSR) as [compaction |] eqn:Hreg.
    + destruct (Hentries _ _ Hreg) as (Hdest & Hmax & Hsrc).
      pose proof (rebuilt_in_order compaction outputSR (compacted (dbState c))
                    Hsorted Hbelow Hdest Hmax) as Horder.
      rewrite (finishCompaction_registered c outputSR compaction Hreg Hkind), Horder.
      destruct (sources compaction) as [| firstSource rest]; [contradiction |].
      cbn [length Nat.ltb Nat.leb AssertTrue mbind outcome_bind].
      eexists. split; [reflexivity |].
      apply assertCompactedSRsInIDOrder_Done in Horder as [Hs Hb].
      split; [| split; [| split]]; cbn [dbState compactions l0 compacted];
        try assumption.
      * unfold l0_compacted_kind in *. rewrite Forall_forall in *. intros sst Hin.
        apply list_elem_of_filter in Hin as [_ Hin]. auto.
      * apply map_Forall_delete, Hentries.
    + exists c. unfold finishCompaction. rewrite Hreg. split; [reflexivity |].
      split; [| split; [| split]]; assumption.
Qed.

(** X9: from a state whose level-0 files are of the compacted kind,
    whose runs are strictly decreasing by id below [MaxUint32] and whose
    entries have a source and are filed under a destination below
    [MaxUint32], no run of calls stops at an assertion, as long as every
    compaction submitted has a source and a destination below
    [MaxUint32] and every writer state has level-0 files of the compacted
    kind; the state reached is again of that kind. *)
Theorem safe_calls_never_panic c calls :
  safe_state c ->
  Forall safe_call calls ->
  exists c', doCalls c calls = Done c' /\ safe_state c'.
Proof.
  intros Hsafe Hcalls. revert c Hsafe.
  induction Hcalls as [| call calls Hcall _ IH]; intros c Hsafe.
  - exists c. split; [reflexivity | exact Hsafe].
  - destruct (safe_call_step c call Hsafe Hcall) as (c1 & Hstep & Hsafe1).
    destruct (IH c1 Hsafe1) as (c' & Hrun & Hsafe').
    exists c'. cbn [doCalls]. rewrite Hstep. cbn [mbind outcome_bind].
    split; assumption.
Qed.

Lemma sample_db_safe : safe_state (newCompactorState sample.db).
Proof.
  split; [repeat constructor |]. split; [exact sample_db_in_order |].
  split; [repeat constructor | apply map_Forall_empty].
Qed.

Lemma safe_calls_never_panic_witness :
  exists c',
    doCalls (newCompactorState sample.db)
      [CallSubmit sample.l0ToRun6; CallRefresh sample.writerDB;
       CallFinish (mkSortedRun 6 [sample.sst1]); CallSubmit sample.runsTo3;
       CallFinish (mkSortedRun 9 []); CallFinish (mkSortedRun 3 [sample.sst2])]
    = Done c' /\ safe_state c'.
Proof.
  apply (safe_calls_never_panic (newCompactorState sample.db)).
  - exact sample_db_safe.
  - repeat constructor; cbn; try discriminate; try lia.
Defined.

(** X10: a call of finishCompaction that returns adds nothing of its
    own: the level-0 files left are files that were there, in their
    order; every run left is the output run or a run that was there; the
    two counters of the write path are untouched; no entry is added to
    compactions. *)
Theorem finishCompaction_adds_nothing c outputSR c' :
  finishCompaction c outputSR = Done c' ->
  l0 (dbState c') `sublist_of` l0 (dbState c) /\
  (forall sr, sr ∈ compacted (dbState c') ->
              sr = outputSR \/ sr ∈ compacted (dbState c)) /\
  nextWalSstID (dbState c') = nextWalSstID (dbState c) /\
  lastCompactedWalSSTID (dbState c') = lastCompactedWalSSTID (dbState c) /\
  compactions c' ⊆ compactions c.
Proof.
  intros Hrun.
  apply finishCompaction_Done_inv in Hrun
    as [[_ ->] | (compaction & f & r & _ & _ & _ & _ & ->)].
  - repeat split; try reflexivity. auto.
  - cbn [dbState l0 compacted nextWalSstID lastCompactedWalSSTID compactions].
    split; [apply sublist_filter |].
    split; [| split; [reflexivity | split; [reflexivity | apply delete_subseteq]]].
    intros sr Hin. unfold rebuilt in Hin.
    rewrite elem_of_app, elem_of_cons, !list_elem_of_filter in Hin.
    destruct Hin as [[_ Hin] | [-> | [_ Hin]]]; [right | left; reflexivity | right].
    + eapply elem_of_sublist; [exact Hin | apply sublist_take].
    + eapply elem_of_sublist; [exact Hin | apply sublist_drop].
Qed.

Lemma finishCompaction_adds_nothing_witness :
  let c := fst (submitCompaction (newCompactorState sample.db) sample.l0ToRun6) in
  exists c',
    finishCompaction c (mkSortedRun 6 [sample.sst1]) = Done c' /\
    sr_id <$> compacted (dbState c') = [6; 5; 3] /\
    l0 (dbState c') `sublist_of` l0 (dbState c).
Proof.
  cbn zeta. eexists. split; [vm_compute; reflexivity |].
  split; [vm_compute; reflexivity |].
  eapply (finishCompaction_adds_nothing
            (fst (submitCompaction (newCompactorState sample.db) sample.l0ToRun6))
            (mkSortedRun 6 [sample.sst1])).
  vm_compute. reflexivity.
Defined.

(** X11: after a compaction whose first source is a file has been
    finished, a refresh takes from the writer's level-0 list only what
    stands in front of that file: the watermark is the file's id, the new
    l0 is a prefix of the writer's, and the file is not in it. *)
Theorem refresh_after_finish_stops_at_first_source
    c outputSR compaction firstSource rest id c1 writerState c2 :
  compactions c !! sr_id outputSR = Some compaction ->
  sources compaction = firstSource :: rest ->
  sstID firstSource = Some id ->
  finishCompaction c outputSR = Done c1 ->
  refreshDBState c1 writerState = Done c2 ->
  l0LastCompacted (dbState c2) = Some id /\
  l0 (dbState c2) `prefix_of` l0 writerState /\
  (forall sst, sst ∈ l0 (dbState c2) -> compactedID (sst_id sst) <> Some id).
Proof.
  intros Hreg Hsrc Hid Hfinish Hrefresh.
  apply finishCompaction_Done_inv in Hfinish
    as [[Hnone _] | (compaction' & f & r & Hreg' & Hsrc' & _ & _ & ->)];
    [congruence |].
  assert (compaction' = compaction) as -> by congruence.
  assert (f = firstSource) as -> by congruence.
  apply refreshDBState_Done_inv in Hrefresh as (merged & Hmerge & ->).
  cbn [dbState l0 l0LastCompacted] in *. rewrite Hid in *.
  cbn [mo.IsPresent mo.Get] in *.
  apply mergeL0s_Done_inv in Hmerge as (kept & rest' & -> & -> & _ & Hno & _).
  cbn [app]. split; [reflexivity |].
  split; [apply prefix_app_r; reflexivity |].
  intros sst Hin Hmatch. rewrite Forall_forall in Hno.
  apply (Hno sst Hin). split; [eexists; reflexivity | exact Hmatch].
Qed.

Lemma refresh_after_finish_stops_at_first_source_witness :
  let c := fst (submitCompaction (newCompactorState sample.db) sample.l0ToRun6) in
  exists c1 c2,
    finishCompaction c (mkSortedRun 6 [sample.sst1]) = Done c1 /\
    refreshDBState c1 sample.writerDB = Done c2 /\
    l0 (dbState c2) = [sample.sst3] /\
    l0LastCompacted (dbState c2) = Some sample.ulid2.
Proof.
  cbn zeta. eexists. eexists. split; [vm_compute; reflexivity |].
  split; [vm_compute; reflexivity |].
  split; [vm_compute; reflexivity |].
  eapply (refresh_after_finish_stops_at_first_source
            (fst (submitCompaction (newCompactorState sample.db) sample.l0ToRun6))
            (mkSortedRun 6 [sample.sst1])
            sample.l0ToRun6 (newSourceIDSST sample.ulid2) [newSourceIDSST sample.ulid1]
            sample.ulid2 _ sample.writerDB).
  - vm_compute. reflexivity.
  - reflexivity.
  - vm_compute. reflexivity.
  - vm_compute. reflexivity.
  - vm_compute. reflexivity.
Defined.

(** ** Source ids and submitted compactions *)

(** X12: the two constructors of SourceID lose nothing: sorted-run
    sources of two uint32 ids are equal only if the ids are, file sources
    of two ULIDs are equal only if the ULIDs are, and a sorted-run source
    is never a file source. *)
Theorem SourceID_constructors_injective (a b : Z) (u v : ulid.ULID) :
  is_uint32 a -> is_uint32 b -> ulid.wf u -> ulid.wf v ->
  (newSourceIDSortedRun a = newSourceIDSortedRun b -> a = b) /\
  (newSourceIDSST u = newSourceIDSST v -> u = v) /\
  newSourceIDSortedRun a <> newSourceIDSST u.
Proof.
  intros Ha Hb Hu Hv. split; [| split].
  - intros Heq.
    pose proof (sortedRunID_newSourceIDSortedRun a Ha) as H1.
    pose proof (sortedRunID_newSourceIDSortedRun b Hb) as H2.
    rewrite Heq in H1. congruence.
  - intros Heq.
    pose proof (sstID_newSourceIDSST u Hu) as H1.
    pose proof (sstID_newSourceIDSST v Hv) as H2.
    rewrite Heq in H1. congruence.
  - discriminate.
Qed.

Lemma SourceID_constructors_injective_witness :
  (newSourceIDSortedRun 5 = newSourceIDSortedRun MaxUint32 -> 5 = MaxUint32) /\
  (newSourceIDSST sample.ulid1 = newSourceIDSST sample.ulid2 ->
   sample.ulid1 = sample.ulid2) /\
  newSourceIDSortedRun 5 <> newSourceIDSST sample.ulid1.
Proof.
  apply SourceID_constructors_injective.
  - unfold is_uint32, MaxUint32. lia.
  - unfold is_uint32, MaxUint32. lia.
  - apply sample_ulid_wf.
  - apply sample_ulid_wf.
Defined.

Lemma sortedRunID_matches srcs dest :
  (exists s, s ∈ srcs /\ sortedRunID s = Some dest) ->
  oneOfTheSourceSRMatches srcs dest = true.
Proof.
  induction srcs as [| src srcs IH]; intros (s & Hin & Hs); [inversion Hin |].
  cbn [oneOfTheSourceSRMatches].
  apply elem_of_cons in Hin as [-> | Hin].
  - pose proof (sortedRunID_typ _ _ Hs) as Htyp.
    rewrite bool_decide_eq_true_2 by assumption.
    unfold sortedRunID in Hs. rewrite Htyp in Hs.
    rewrite bool_decide_eq_true_2 in Hs by reflexivity. cbn [negb] in Hs.
    destruct (strconv.Atoi (src_value src)) as [val [err |]]; [discriminate |].
    injection Hs as Hval. cbn [fst]. rewrite Hval, Z.eqb_refl. reflexivity.
  - assert (Hrest : oneOfTheSourceSRMatches srcs dest = true) by (apply IH; eauto).
    rewrite Hrest. destruct (bool_decide _); [| reflexivity].
    destruct (_ =? _); reflexivity.
Qed.

(** X13: for any sources at all, also ones whose text is not that of a
    constructor, a rejection by submitCompaction has its reason and
    changes nothing: there is an entry at the destination already, or a
    run has the destination's id and no source gives that id through
    sortedRunID; and the state returned is the state given. *)
Theorem submitCompaction_rejects_for_a_reason c compaction :
  snd (submitCompaction c compaction) = Some common.ErrInvalidCompaction ->
  fst (submitCompaction c compaction) = c /\
  (is_Some (compactions c !! destination compaction) \/
   ((exists sr, sr ∈ compacted (dbState c) /\ sr_id sr = destination compaction) /\
    ~ exists s, s ∈ sources compaction /\ sortedRunID s = Some (destination compaction))).
Proof.
  unfold submitCompaction.
  destruct (compactions c !! destination compaction) as [old |] eqn:Hold; cbn [fst snd].
  - intros _. split; [reflexivity |]. left. eauto.
  - destruct (checkDestination _ _) as [[] |] eqn:Hcheck; cbn [fst snd];
      [| discriminate].
    intros _. split; [reflexivity |]. right.
    apply checkDestination_spec in Hcheck as [Hex Hno]. split; [exact Hex |].
    intros Hs. apply sortedRunID_matches in Hs.
    unfold oneOfTheSourceSRMatchesDestination in Hno. congruence.
Qed.

Lemma submitCompaction_rejects_for_a_reason_witness :
  let compaction := newCompaction [mkSourceID SortedRunID "five"; newSourceIDSST sample.ulid1] 5 in
  snd (submitCompaction (newCompactorState sample.db) compaction)
    = Some common.ErrInvalidCompaction /\
  fst (submitCompaction (newCompactorState sample.db) compaction)
    = newCompactorState sample.db.
Proof.
  cbn zeta. split; [vm_compute; reflexivity |].
  apply (submitCompaction_rejects_for_a_reason (newCompactorState sample.db)
           (newCompaction [mkSourceID SortedRunID "five"; newSourceIDSST sample.ulid1] 5)).
  vm_compute. reflexivity.
Defined.

(** X14: after a compaction is accepted, getCompactions returns it
    together with the compactions it returned before, in some order. *)
Theorem getCompactions_after_submit c compaction c' :
  submitCompaction c compaction = (c', None) ->
  getCompactions c' ≡ₚ compaction :: getCompactions c.
Proof.
  intros Hsubmit.
  destruct (submitCompaction_cases c compaction) as [Herr | [Hfree Hok]];
    [rewrite Herr in Hsubmit; discriminate |].
  rewrite Hok in Hsubmit. injection Hsubmit as <-.
  unfold getCompactions. cbn [compactions].
  rewrite (map_to_list_insert _ _ _ Hfree). reflexivity.
Qed.

Lemma getCompactions_after_submit_witness :
  exists c1 c2,
    submitCompaction (newCompactorState sample.db) sample.l0ToRun6 = (c1, None) /\
    submitCompaction c1 sample.runsTo3 = (c2, None) /\
    getCompactions c2 ≡ₚ sample.runsTo3 :: getCompactions c1.
Proof.
  eexists. eexists. split; [vm_compute; reflexivity |].
  split; [vm_compute; reflexivity |].
  eapply (getCompactions_after_submit
            (fst (submitCompaction (newCompactorState sample.db) sample.l0ToRun6))
            sample.runsTo3).
  vm_compute. reflexivity.
Defined.

(** X15: assertCompactedSRsInIDOrder passes exactly on the lists that
    are strictly decreasing by id and whose first id is below
    [MaxUint32]; on every other list it stops with its message. *)
Theorem assertCompactedSRsInIDOrder_passes_iff srs :
  (assertCompactedSRsInIDOrder srs = Done tt <->
   StronglySorted (fun a b => sr_id b < sr_id a) srs /\
   (forall sr, head srs = Some sr -> sr_id sr < MaxUint32)) /\
  (assertCompactedSRsInIDOrder srs = Done tt \/
   assertCompactedSRsInIDOrder srs =
     Panicked "compacted sortedRuns not in decreasing order").
Proof.
  split; [| apply assertInIDOrderFrom_cases].
  unfold assertCompactedSRsInIDOrder. rewrite assertInIDOrderFrom_Done. split.
  - intros [Hs Hall]. split; [exact Hs |].
    intros sr Hhead. destruct srs as [| sr' srs]; [discriminate |].
    injection Hhead as ->. apply Forall_cons in Hall. tauto.
  - intros [Hs Hhead]. split; [exact Hs |].
    destruct srs as [| sr srs]; [constructor |].
    specialize (Hhead sr eq_refl).
    apply StronglySorted_cons in Hs as [Hall _].
    constructor; [exact Hhead |].
    eapply Forall_impl; [exact Hall |]. cbn. intros; lia.
Qed.

(** ** The output run and the next compaction *)

Lemma same_id_same_run srs a b :
  NoDup (sr_id <$> srs) -> a ∈ srs -> b ∈ srs -> sr_id a = sr_id b -> a = b.
Proof.
  induction srs as [| sr srs IH]; intros Hnodup Ha Hb Hid; [inversion Ha |].
  cbn in Hnodup. apply NoDup_cons in Hnodup as [Hfresh Hnodup].
  apply elem_of_cons in Ha as [-> | Ha]; apply elem_of_cons in Hb as [-> | Hb].
  - reflexivity.
  - exfalso. apply Hfresh. rewrite Hid. apply list_elem_of_fmap. eauto.
  - exfalso. apply Hfresh. rewrite <- Hid. apply list_elem_of_fmap. eauto.
  - apply IH; assumption.
Qed.

Lemma outputSR_in_rebuilt compaction outputSR srs :
  outputSR ∈ rebuilt compaction outputSR srs.
Proof. unfold rebuilt. rewrite elem_of_app, elem_of_cons. auto. Qed.

(** X16: after finishCompaction has returned for a registered
    compaction, the output run is in the compacted list, and it is the
    only run there with its id. *)
Theorem finishCompaction_places_output c outputSR compaction c' :
  compactions c !! sr_id outputSR = Some compaction ->
  finishCompaction c outputSR = Done c' ->
  outputSR ∈ compacted (dbState c') /\
  (forall sr, sr ∈ compacted (dbState c') -> sr_id sr = sr_id outputSR -> sr = outputSR).
Proof.
  intros Hreg Hrun.
  apply finishCompaction_Done_inv in Hrun
    as [[Hnone _] | (compaction' & f & r & Hreg' & _ & _ & Horder & ->)];
    [congruence |].
  assert (compaction' = compaction) as -> by congruence.
  cbn [dbState compacted].
  apply assertCompactedSRsInIDOrder_Done in Horder as [[_ Hnodup] _].
  split; [apply outputSR_in_rebuilt |].
  intros sr Hin Hid.
  apply (same_id_same_run _ sr outputSR Hnodup Hin); [| exact Hid].
  apply outputSR_in_rebuilt.
Qed.

Lemma finishCompaction_places_output_witness :
  let c := fst (submitCompaction (newCompactorState sample.db) sample.runsTo3) in
  exists c',
    finishCompaction c (mkSortedRun 3 [sample.sst2]) = Done c' /\
    compacted (dbState c') = [mkSortedRun 3 [sample.sst2]] /\
    mkSortedRun 3 [sample.sst2] ∈ compacted (dbState c').
Proof.
  cbn zeta. eexists. split; [vm_compute; reflexivity |].
  split; [vm_compute; reflexivity |].
  eapply (finishCompaction_places_output
            (fst (submitCompaction (newCompactorState sample.db) sample.runsTo3))
            (mkSortedRun 3 [sample.sst2]) sample.runsTo3).
  - vm_compute. reflexivity.
  - vm_compute. reflexivity.
Defined.

(** X17: once a compaction has been finished, its destination is free
    again, but the run now stands there: a next compaction for the same
    destination, with sources as the constructors make them, is accepted
    if and only if one of its sources is the sorted run of that id. *)
Theorem submit_after_finish c outputSR compaction c' next :
  compactions c !! sr_id outputSR = Some compaction ->
  finishCompaction c outputSR = Done c' ->
  destination next = sr_id outputSR ->
  Forall wfSourceID (sources next) ->
  snd (submitCompaction c' next) = None <->
  exists s, s ∈ sources next /\ sortedRunID s = Some (sr_id outputSR).
Proof.
  intros Hreg Hrun Hdest Hwf.
  apply finishCompaction_Done_inv in Hrun
    as [[Hnone _] | (compaction' & f & r & _ & _ & _ & _ & Hc')];
    [congruence |].
  assert (Hin : outputSR ∈ compacted (dbState c')).
  { rewrite Hc'. cbn [dbState compacted]. apply outputSR_in_rebuilt. }
  assert (Hfree : compactions c' !! destination next = None).
  { rewrite Hc', Hdest. cbn [compactions]. apply lookup_delete_eq. }
  pose proof (oneOfTheSourceSRMatches_spec (sources next) (destination next) Hwf)
    as Hone.
  fold (oneOfTheSourceSRMatchesDestination next) in Hone.
  pose proof (checkDestination_spec (compacted (dbState c')) next) as Hcheck.
  rewrite <- Hdest, <- Hone.
  unfold submitCompaction. rewrite Hfree.
  destruct (checkDestination _ _) as [[] |] eqn:Herr; cbn [snd].
  - destruct (proj1 Hcheck eq_refl) as [_ Hno]. rewrite Hno.
    split; discriminate.
  - split; [| reflexivity]. intros _.
    destruct (oneOfTheSourceSRMatchesDestination next) eqn:Hmatch; [reflexivity |].
    exfalso.
    assert (@None common.error = Some common.ErrInvalidCompaction) as Habs;
      [| discriminate].
    apply Hcheck. split; [| reflexivity].
    exists outputSR. split; [exact Hin | symmetry; exact Hdest].
Qed.

Lemma submit_after_finish_witness :
  let c := fst (submitCompaction (newCompactorState sample.db) sample.l0ToRun6) in
  exists c',
    finishCompaction c (mkSortedRun 6 [sample.sst1]) = Done c' /\
    snd (submitCompaction c' (newCompaction [newSourceIDSortedRun 5] 6))
      = Some common.ErrInvalidCompaction /\
    snd (submitCompaction c'
           (newCompaction [newSourceIDSortedRun 6; newSourceIDSortedRun 5] 6)) = None.
Proof.
  cbn zeta. eexists. split; [vm_compute; reflexivity |].
  split; [vm_compute; reflexivity |].
  eapply (submit_after_finish
            (fst (submitCompaction (newCompactorState sample.db) sample.l0ToRun6))
            (mkSortedRun 6 [sample.sst1]) sample.l0ToRun6).
  - vm_compute. reflexivity.
  - vm_compute. reflexivity.
  - reflexivity.
  - cbn [sources newCompaction].
    repeat (apply Forall_cons; split; [left; eexists; split;
      [| reflexivity]; unfold is_uint32, MaxUint32; lia |]).
    constructor.
  - eexists. split; [left |]. vm_compute. reflexivity.
Defined.

Lemma omap_sstID_sorted_runs srcs :
  Forall (fun s => src_typ s = SortedRunID) srcs -> omap sstID srcs = [].
Proof.
  induction 1 as [| s srcs Hs _ IH]; [reflexivity |].
  cbn [omap list_omap]. fold (omap sstID srcs). rewrite IH.
  destruct (sstID s) as [id |] eqn:Hid; [| reflexivity].
  apply sstID_typ in Hid. congruence.
Qed.

(** X18: a compaction of sorted runs into a sorted run leaves level 0
    alone: when every source of a registered compaction is of the
    sorted-run type, a call of finishCompaction that returns keeps l0
    and the watermark as they were. *)
Theorem finishCompaction_of_runs_keeps_l0 c outputSR compaction c' :
  compactions c !! sr_id outputSR = Some compaction ->
  Forall (fun s => src_typ s = SortedRunID) (sources compaction) ->
  finishCompaction c outputSR = Done c' ->
  l0 (dbState c') = l0 (dbState c) /\
  l0LastCompacted (dbState c') = l0LastCompacted (dbState c).
Proof.
  intros Hreg Htyp Hrun.
  apply finishCompaction_Done_inv in Hrun
    as [[Hnone _] | (compaction' & f & r & Hreg' & Hsrc & _ & _ & ->)];
    [congruence |].
  assert (compaction' = compaction) as -> by congruence.
  cbn [dbState l0 l0LastCompacted]. split.
  - assert (Hnone : fileSources compaction = [])
      by (apply omap_sstID_sorted_runs, Htyp).
    induction (l0 (dbState c)) as [| sst ssts IH]; [reflexivity |].
    rewrite filter_cons_True; [rewrite IH; reflexivity |].
    unfold consumedFile. rewrite Hnone.
    destruct (compactedID (sst_id sst)); [apply not_elem_of_nil | tauto].
  - rewrite Hsrc in Htyp. apply Forall_cons in Htyp as [Hf _].
    destruct (sstID f) as [id |] eqn:Hid; [| reflexivity].
    apply sstID_typ in Hid. congruence.
Qed.

Lemma finishCompaction_of_runs_keeps_l0_witness :
  let c := fst (submitCompaction (newCompactorState sample.db) sample.runsTo3) in
  exists c',
    finishCompaction c (mkSortedRun 3 [sample.sst2]) = Done c' /\
    l0 (dbState c') = [sample.sst2; sample.sst1] /\
    l0LastCompacted (dbState c') = None.
Proof.
  cbn zeta. eexists. split; [vm_compute; reflexivity |].
  eapply (finishCompaction_of_runs_keeps_l0
            (fst (submitCompaction (newCompactorState sample.db) sample.runsTo3))
            (mkSortedRun 3 [sample.sst2]) sample.runsTo3).
  - vm_compute. reflexivity.
  - repeat constructor.
  - vm_compute. reflexivity.
Defined.
